(** * george: covariance kernels (templates/kernels.h)

    A shallow embedding of the kernel classes of [templates/kernels.h]:
    the base class [Kernel], the binary operators [Sum] and [Product]
    (both deriving from [Operator]) and the two class templates that the
    Jinja loop instantiates once per kernel specification, the
    stationary kernels (over a [Metric]) and the additive kernels (over a
    [Subspace]).

    - [unsigned] is a [Z] in [0, 2^32) and its arithmetic wraps ([uadd],
      [usub]);
    - [double] is Rocq's primitive binary64 [float];
    - a [double*] output buffer is a [list float] that is threaded
      through the call; [&(grad[n])] is the part of the buffer that
      starts at index [n] ([at_offset]);
    - an object is the value of its members, and a [void] member function
      that assigns to members returns the new object.  An operator owns
      its two children ([~Operator] deletes both), so a kernel is a tree
      and no child is shared. *)

From Stdlib Require Import ZArith Lia.
From Stdlib Require Import Floats.PrimFloat.
From stdpp Require Import base option list.

Open Scope Z_scope.

(** ** [unsigned] arithmetic *)

Definition UINT_MODULUS : Z := 2 ^ 32.

Definition wrap (z : Z) : Z := z mod UINT_MODULUS.

(** [a + b] and [a - b] on [unsigned] operands. *)
Definition uadd (a b : Z) : Z := wrap (a + b).
Definition usub (a b : Z) : Z := wrap (a - b).

(** ** Buffers of doubles *)

(** [x[j]] as an rvalue.  The source does not bound-check; outside the
    list the model reads [0.0]. *)
Definition load (x : list float) (j : Z) : float :=
  default 0%float (x !! Z.to_nat j).

(** [grad[i] = v].  Outside the list the model leaves the buffer as it is
    (in the source this is a write past the caller's buffer). *)
Definition store (i : Z) (v : float) (grad : list float) : list float :=
  <[Z.to_nat i := v]> grad.

(** [grad[i] op= ...], with [f] the new value as a function of the old. *)
Definition update (f : float -> float) (i : Z) (grad : list float) : list float :=
  alter f (Z.to_nat i) grad.

(** The entry of a buffer at an [unsigned] index, if the buffer has one. *)
Definition entry (grad : list float) (i : Z) : option float :=
  grad !! Z.to_nat i.

(** [callee(..., &(grad[n]))]: the callee works on the buffer that starts
    at [grad[n]]; what lies before index [n] is out of its reach. *)
Definition at_offset (n : Z) (callee : list float -> list float)
    (grad : list float) : list float :=
  take (Z.to_nat n) grad ++ callee (drop (Z.to_nat n) grad).

(** [for (i = a; i < b; ++i) body], with the state the body changes
    passed along. *)
Definition for_range {S : Type} (a b : Z) (body : Z -> S -> S) (s : S) : S :=
  foldl (fun s i => body i s) s (seqZ a (b - a)).

(** ** The collaborators: Metric and Subspace *)

(** Modelled from the spec: [metrics.h] is not among the sources.  A
    metric is an object with the kernel's own addressing interface:
    [value(x1, x2)] is the squared distance [r2], [gradient(x1, x2, out)]
    writes the partials of [r2] into [out], and [size], [get_ndim],
    [get_parameter], [set_parameter] are as for a kernel. *)
Class Metric (M : Type) := {
  metric_value : M -> list float -> list float -> float;
  metric_gradient : M -> list float -> list float -> list float -> list float;
  metric_size : M -> Z;
  metric_get_ndim : M -> Z;
  metric_set_parameter : M -> Z -> float -> M;
  metric_get_parameter : M -> Z -> float
}.

(** Modelled from the spec: [subspace.h] is not among the sources.  The
    kernels only call the three [const] accessors, so a subspace is what
    they return: the number of selected axes, the [i]-th selected axis
    and the length of the feature vectors. *)
Record Subspace := {
  get_naxes : Z;
  get_axis : Z -> Z;
  subspace_get_ndim : Z
}.

(** ** The kernel specifications the template is instantiated with

    [spec.params] fixes the number and the order of the hyperparameters;
    an object holds their values in that order ([param_<name>_]).
    [spec.value] is the body of [get_value], [spec.grad[param]] the body
    of [<param>_gradient] for the parameter declared at a given position
    and [spec.grad["r2"]] the body of [radial_gradient].  The bodies
    receive the hyperparameters in declaration order. *)

Record StationarySpec := {
  st_get_value : list float -> float -> float;
  st_param_gradient : Z -> list float -> float -> float;
  st_radial_gradient : list float -> float -> float
}.

Record AdditiveSpec := {
  ad_get_value : list float -> float -> float -> float;
  ad_param_gradient : Z -> list float -> float -> float -> float
}.

(** The member [size_], initialised to [spec.params|length]. *)
Definition size_ (params : list float) : Z := Z.of_nat (length params).

(** The unrolled [if (i == idx) return this->param_<name>_;] chain, with
    [idx] the position of the first parameter of [params]; [None] when
    no test succeeds. *)
Fixpoint param_get (params : list float) (idx i : Z) : option float :=
  match params with
  | [] => None
  | p :: rest => if i =? idx then Some p else param_get rest (idx + 1) i
  end.

(** The unrolled [if (i == idx) this->param_<name>_ = value; else] chain;
    [None] when control reaches the statement after the last [else]. *)
Fixpoint param_set (params : list float) (idx i : Z) (v : float)
    : option (list float) :=
  match params with
  | [] => None
  | p :: rest =>
      if i =? idx then Some (v :: rest)
      else cons p <$> param_set rest (idx + 1) i v
  end.

(** One statement per declared parameter ([{% for param in spec.params %}]):
    [body idx] for [idx = 0, 1, ..., k-1], in that order. *)
Definition for_params {S : Type} (params : list float) (body : Z -> S -> S)
    (s : S) : S :=
  for_range 0 (size_ params) body s.

(** What the additive [gradient] accumulates for the parameter declared
    at position [idx]: its partial, summed over the selected axes in the
    order of the loop, starting from [0.0]. *)
Definition additive_partial (spec : AdditiveSpec) (subspace_ : Subspace)
    (params : list float) (x1 x2 : list float) (idx : Z) : float :=
  for_range 0 (get_naxes subspace_)
    (fun i acc =>
       let j := get_axis subspace_ i in
       (acc + ad_param_gradient spec idx params (load x1 j) (load x2 j))%float)
    0%float.

Section Kernels.

Context {M : Type} {metric : Metric M}.

(** ** The kernel classes *)

Inductive Kernel : Type :=
  | Base
  | Sum (kernel1_ kernel2_ : Kernel)
  | Product (kernel1_ kernel2_ : Kernel)
  | Stationary (spec : StationarySpec) (metric_ : M) (params : list float)
  | Additive (spec : AdditiveSpec) (subspace_ : Subspace) (params : list float).

(** [Sum] and [Product] are the two classes that derive from [Operator]. *)
Inductive operator : Type := OpSum | OpProduct.

Definition Operator (o : operator) (kernel1_ kernel2_ : Kernel) : Kernel :=
  match o with
  | OpSum => Sum kernel1_ kernel2_
  | OpProduct => Product kernel1_ kernel2_
  end.

Fixpoint size (k : Kernel) : Z :=
  match k with
  | Base => 0
  | Sum kernel1_ kernel2_ | Product kernel1_ kernel2_ =>
      uadd (size kernel1_) (size kernel2_)
  | Stationary _ metric_ params => uadd (metric_size metric_) (size_ params)
  | Additive _ _ params => size_ params
  end.

Fixpoint get_ndim (k : Kernel) : Z :=
  match k with
  | Base => 0
  | Sum kernel1_ _ | Product kernel1_ _ => get_ndim kernel1_
  | Stationary _ metric_ _ => metric_get_ndim metric_
  | Additive _ subspace_ _ => subspace_get_ndim subspace_
  end.

Fixpoint set_parameter (k : Kernel) (i : Z) (v : float) : Kernel :=
  match k with
  | Base => Base
  | Sum kernel1_ kernel2_ =>
      let n := size kernel1_ in
      if i <? n then Sum (set_parameter kernel1_ i v) kernel2_
      else Sum kernel1_ (set_parameter kernel2_ (usub i n) v)
  | Product kernel1_ kernel2_ =>
      let n := size kernel1_ in
      if i <? n then Product (set_parameter kernel1_ i v) kernel2_
      else Product kernel1_ (set_parameter kernel2_ (usub i n) v)
  | Stationary spec metric_ params =>
      match param_set params 0 i v with
      | Some params' => Stationary spec metric_ params'
      | None =>
          Stationary spec
            (metric_set_parameter metric_ (usub i (size_ params)) v) params
      end
  | Additive spec subspace_ params =>
      match param_set params 0 i v with
      | Some params' => Additive spec subspace_ params'
      | None => Additive spec subspace_ params
      end
  end.

Fixpoint get_parameter (k : Kernel) (i : Z) : float :=
  match k with
  | Base => 0%float
  | Sum kernel1_ kernel2_ | Product kernel1_ kernel2_ =>
      let n := size kernel1_ in
      if i <? n then get_parameter kernel1_ i
      else get_parameter kernel2_ (usub i n)
  | Stationary _ metric_ params =>
      match param_get params 0 i with
      | Some p => p
      | None => metric_get_parameter metric_ (usub i (size_ params))
      end
  | Additive _ _ params =>
      match param_get params 0 i with
      | Some p => p
      | None => 0%float
      end
  end.

Fixpoint value (k : Kernel) (x1 x2 : list float) : float :=
  match k with
  | Base => 0%float
  | Sum kernel1_ kernel2_ =>
      (value kernel1_ x1 x2 + value kernel2_ x1 x2)%float
  | Product kernel1_ kernel2_ =>
      (value kernel1_ x1 x2 * value kernel2_ x1 x2)%float
  | Stationary spec metric_ params =>
      let r2 := metric_value metric_ x1 x2 in
      st_get_value spec params r2
  | Additive spec subspace_ params =>
      let n := get_naxes subspace_ in
      for_range 0 n
        (fun i value =>
           let j := get_axis subspace_ i in
           (value + ad_get_value spec params (load x1 j) (load x2 j))%float)
        0%float
  end.

Fixpoint gradient (k : Kernel) (x1 x2 : list float) (grad : list float)
    : list float :=
  match k with
  | Base => grad
  | Sum kernel1_ kernel2_ =>
      let n := size kernel1_ in
      let grad := gradient kernel1_ x1 x2 grad in
      at_offset n (gradient kernel2_ x1 x2) grad
  | Product kernel1_ kernel2_ =>
      let n1 := size kernel1_ in
      let n2 := size (Product kernel1_ kernel2_) in
      let grad := gradient kernel1_ x1 x2 grad in
      let grad := at_offset n1 (gradient kernel2_ x1 x2) grad in
      let k1 := value kernel1_ x1 x2 in
      let k2 := value kernel2_ x1 x2 in
      let grad := for_range 0 n1 (update (fun g => (g * k2)%float)) grad in
      for_range n1 n2 (update (fun g => (g * k1)%float)) grad
  | Stationary spec metric_ params =>
      let n := size (Stationary spec metric_ params) in
      let r2 := metric_value metric_ x1 x2 in
      let r2grad := st_radial_gradient spec params r2 in
      let grad :=
        for_params params
          (fun idx => store idx (st_param_gradient spec idx params r2)) grad in
      let grad := at_offset (size_ params) (metric_gradient metric_ x1 x2) grad in
      for_range (size_ params) n (update (fun g => (g * r2grad)%float)) grad
  | Additive spec subspace_ params =>
      let grad := for_params params (fun idx => store idx 0%float) grad in
      match params with
      | [] => grad
      | _ :: _ =>
          let n := get_naxes subspace_ in
          for_range 0 n
            (fun i grad =>
               let j := get_axis subspace_ i in
               for_params params
                 (fun idx =>
                    update
                      (fun g =>
                         (g + ad_param_gradient spec idx params
                                (load x1 j) (load x2 j))%float)
                      idx)
                 grad)
            grad
      end
  end.


(** *** What the theorems below say about these classes *)

(** No [unsigned] sum in [size()] wraps, anywhere in the tree: [size()]
    is then the number of parameters of the tree, and every entry of the
    flat parameter vector has an [unsigned] index. *)
Fixpoint fits (k : Kernel) : bool :=
  match k with
  | Base => true
  | Sum kernel1_ kernel2_ | Product kernel1_ kernel2_ =>
      fits kernel1_ && fits kernel2_
      && (size kernel1_ + size kernel2_ <? UINT_MODULUS)
  | Stationary _ metric_ params =>
      (0 <=? metric_size metric_)
      && (metric_size metric_ + size_ params <? UINT_MODULUS)
  | Additive _ _ _ => true
  end.

(** How far into its buffer [gradient] goes: every entry it writes has an
    index below [reach k].  Each child writes from its own offset on,
    whatever [size()] of the parent is, so sizes are added here as
    integers; when no size wraps, [reach k] is [size k]. *)
Fixpoint reach (k : Kernel) : Z :=
  match k with
  | Base => 0
  | Sum kernel1_ kernel2_ | Product kernel1_ kernel2_ =>
      Z.max (reach kernel1_) (size kernel1_ + reach kernel2_)
  | Stationary _ metric_ params => size_ params + metric_size metric_
  | Additive _ _ params => size_ params
  end.

(** [size()] of every node of the tree, parents before children and left
    before right. *)
Fixpoint subtree_sizes (k : Kernel) : list Z :=
  match k with
  | Sum kernel1_ kernel2_ | Product kernel1_ kernel2_ =>
      size k :: subtree_sizes kernel1_ ++ subtree_sizes kernel2_
  | Base | Stationary _ _ _ | Additive _ _ _ => [size k]
  end.

(** The gradient of [k] on its own: what [k.gradient(x1, x2, out)] leaves
    in a buffer [out] of [k.size()] doubles. *)
Definition own_gradient (k : Kernel) (x1 x2 : list float) : list float :=
  gradient k x1 x2 (replicate (Z.to_nat (size k)) 0%float).


End Kernels.

Arguments Kernel : clear implicits.

(** ** The contract of a Metric

    What section 6 of the design asks of a metric, as far as the kernels
    depend on it.  The theorems take from it what they need, as
    hypotheses. *)

(** Modelled from the spec: [gradient] writes into the caller's buffer;
    it does not resize it. *)
Definition metric_gradient_keeps_length (M : Type) `{Metric M} : Prop :=
  forall (m : M) x1 x2 grad,
    length (metric_gradient m x1 x2 grad) = length grad.

(** Modelled from the spec: [gradient] writes every one of its [size()]
    entries, and what it writes is determined by the metric and the
    inputs, whatever the buffer held before. *)
Definition metric_gradient_writes_all (M : Type) `{Metric M} : Prop :=
  forall (m : M) x1 x2 grad grad' (j : nat),
    Z.of_nat j < metric_size m ->
    metric_size m <= Z.of_nat (length grad) ->
    metric_size m <= Z.of_nat (length grad') ->
    metric_gradient m x1 x2 grad !! j = metric_gradient m x1 x2 grad' !! j.

(** Modelled from the spec: [size()] returns an [unsigned]. *)
Definition metric_size_unsigned (M : Type) `{Metric M} : Prop :=
  forall m : M, 0 <= metric_size m < UINT_MODULUS.

(** Modelled from the spec: [set_parameter], at an index of the metric's
    parameter vector, changes neither [size()] nor [get_ndim()]. *)
Definition metric_shape_fixed (M : Type) `{Metric M} : Prop :=
  forall (m : M) i v,
    0 <= i < metric_size m ->
    metric_size (metric_set_parameter m i v) = metric_size m /\
    metric_get_ndim (metric_set_parameter m i v) = metric_get_ndim m.

(** Modelled from the spec: [get_parameter(i)] after [set_parameter(i, v)]
    is [v], at an index of the metric's parameter vector. *)
Definition metric_round_trip (M : Type) `{Metric M} : Prop :=
  forall (m : M) i v,
    0 <= i < metric_size m ->
    metric_get_parameter (metric_set_parameter m i v) i = v.

(** Modelled from the spec: [set_parameter(i, v)] changes no other entry
    of the metric's parameter vector. *)
Definition metric_set_independent (M : Type) `{Metric M} : Prop :=
  forall (m : M) i j v,
    0 <= i < metric_size m -> 0 <= j < metric_size m -> i <> j ->
    metric_get_parameter (metric_set_parameter m i v) j
    = metric_get_parameter m j.

(** Modelled from the spec: [gradient] writes its [size()] entries and
    nothing past them. *)
Definition metric_gradient_frame (M : Type) `{Metric M} : Prop :=
  forall (m : M) x1 x2 grad (j : nat),
    metric_size m <= Z.of_nat j ->
    metric_gradient m x1 x2 grad !! j = grad !! j.

(** A buffer transformer that acts entry by entry: entry [j] of the
    result is [F j] of entry [j] of the argument. *)
Definition pointwise (t : list float -> list float)
    (F : nat -> float -> float) : Prop :=
  forall grad j, t grad !! j = F j <$> grad !! j.

(** ** Objects for the examples *)

(** A metric with one parameter, the scale of the squared Euclidean
    distance over the first [ndim] axes: [r2 = scale * sum_j (x1[j] -
    x2[j])^2], whose partial in [scale] is the unscaled sum. *)
Record ScaledEuclidean := {
  se_ndim : Z;
  se_scale : float
}.

Definition squared_distance (ndim : Z) (x1 x2 : list float) : float :=
  for_range 0 ndim
    (fun j r => (r + (load x1 j - load x2 j) * (load x1 j - load x2 j))%float)
    0%float.

#[export] Instance ScaledEuclidean_Metric : Metric ScaledEuclidean := {|
  metric_value m x1 x2 := (se_scale m * squared_distance (se_ndim m) x1 x2)%float;
  metric_gradient m x1 x2 grad :=
    store 0 (squared_distance (se_ndim m) x1 x2) grad;
  metric_size _ := 1;
  metric_get_ndim m := se_ndim m;
  metric_set_parameter m i v :=
    if i =? 0 then {| se_ndim := se_ndim m; se_scale := v |} else m;
  metric_get_parameter m i := if i =? 0 then se_scale m else 0%float
|}.

(** A stationary specification with one hyperparameter [amp]:
    [value = amp * r2]. *)
Definition linear_in_r2 : StationarySpec := {|
  st_get_value params r2 := (load params 0 * r2)%float;
  st_param_gradient idx params r2 := r2;
  st_radial_gradient params r2 := load params 0
|}.

(** An additive specification with two hyperparameters [a] and [b]:
    [value = a * x1 * x2 + b]. *)
Definition affine_product : AdditiveSpec := {|
  ad_get_value params x1 x2 := (load params 0 * x1 * x2 + load params 1)%float;
  ad_param_gradient idx params x1 x2 :=
    if idx =? 0 then (x1 * x2)%float else 1%float
|}.

Definition unit_metric : ScaledEuclidean := {| se_ndim := 2; se_scale := 1 |}.

Definition first_axis : Subspace :=
  {| get_naxes := 1; get_axis := fun i => i; subspace_get_ndim := 2 |}.

Definition no_axis : Subspace :=
  {| get_naxes := 0; get_axis := fun i => i; subspace_get_ndim := 2 |}.

Definition kA : Kernel ScaledEuclidean :=
  Stationary linear_in_r2 unit_metric [2%float].

Definition kB : Kernel ScaledEuclidean :=
  Additive affine_product first_axis [3%float; 0.5%float].

Definition kTree : Kernel ScaledEuclidean := Product kA (Sum kB kA).

Definition p1 : list float := [1%float; 2%float].
Definition p2 : list float := [3%float; 5%float].
Definition zeros (n : nat) : list float := replicate n 0%float.

(** A metric for the examples of sizes that wrap: a distance that its
    [cm_size] parameters do not enter, so every partial is [0.0]. *)
Record ConstantMetric := {
  cm_ndim : Z;
  cm_size : Z;
  cm_distance : float
}.

#[export] Instance ConstantMetric_Metric : Metric ConstantMetric := {|
  metric_value m x1 x2 := cm_distance m;
  metric_gradient m x1 x2 grad :=
    for_range 0 (cm_size m) (fun i => store i 0%float) grad;
  metric_size m := cm_size m;
  metric_get_ndim m := cm_ndim m;
  metric_set_parameter m i v := m;
  metric_get_parameter m i := 0%float
|}.

Definition wide_metric : ConstantMetric :=
  {| cm_ndim := 2; cm_size := 2 ^ 31; cm_distance := 4 |}.

Definition kW : Kernel ConstantMetric :=
  Stationary linear_in_r2 wide_metric [2%float].

(** A stand-in metric for sizes near [2^32]: it reports [um_size]
    parameters and a fixed distance, and its [gradient] writes the same
    partial into each of its [um_size] entries. *)
Record UniformMetric := {
  um_ndim : Z;
  um_size : Z;
  um_distance : float;
  um_partial : float
}.

#[export] Instance UniformMetric_Metric : Metric UniformMetric := {|
  metric_value m x1 x2 := um_distance m;
  metric_gradient m x1 x2 grad :=
    imap (fun j g => if Z.of_nat j <? um_size m then um_partial m else g) grad;
  metric_size m := um_size m;
  metric_get_ndim m := um_ndim m;
  metric_set_parameter m i v := m;
  metric_get_parameter m i := 0%float
|}.

(** Two parameters on the left, [2^32 - 2] on the right: together [2^32]. *)
Definition kSmall : Kernel UniformMetric :=
  Additive affine_product first_axis [3%float; 0.5%float].

Definition kHuge : Kernel UniformMetric :=
  Stationary linear_in_r2
    {| um_ndim := 2; um_size := 2 ^ 32 - 3; um_distance := 4; um_partial := 1 |}
    [2%float].

(** One hyperparameter over a metric with [2^32 - 1] parameters. *)
Definition widest_metric : UniformMetric :=
  {| um_ndim := 2; um_size := 2 ^ 32 - 1; um_distance := 4; um_partial := 1 |}.

Definition kWrapped : Kernel UniformMetric :=
  Stationary linear_in_r2 widest_metric [2%float].

(** A buffer of [2^32] doubles, one for each parameter of the trees
    above. *)
Definition full_buffer : list float :=
  replicate (Z.to_nat UINT_MODULUS) 0%float.

Definition second_axis_too : Subspace :=
  {| get_naxes := 2; get_axis := fun i => i; subspace_get_ndim := 2 |}.

(** ** Arithmetic of [unsigned] *)

Lemma wrap_small z : 0 <= z < UINT_MODULUS -> wrap z = z.
Proof. intros Hz. unfold wrap. apply Z.mod_small. exact Hz. Qed.

Lemma wrap_range z : 0 <= wrap z < UINT_MODULUS.
Proof. unfold wrap, UINT_MODULUS. apply Z.mod_pos_bound. lia. Qed.

Lemma wrap_le z : 0 <= z -> wrap z <= z.
Proof. intros Hz. unfold wrap, UINT_MODULUS. apply Z.mod_le; lia. Qed.

Lemma uadd_exact a b : 0 <= a + b < UINT_MODULUS -> uadd a b = a + b.
Proof. apply wrap_small. Qed.

Lemma usub_exact a b : 0 <= b <= a -> a < UINT_MODULUS -> usub a b = a - b.
Proof. intros Hb Ha. unfold usub. apply wrap_small. lia. Qed.

(** ** Loops *)

Lemma for_range_done {S : Type} a b (body : Z -> S -> S) s :
  b <= a -> for_range a b body s = s.
Proof.
  intros Hle. unfold for_range, seqZ.
  replace (Z.to_nat (b - a)) with 0%nat by lia. reflexivity.
Qed.

Lemma for_range_step {S : Type} a b (body : Z -> S -> S) s :
  a < b -> for_range a b body s = for_range (a + 1) b body (body a s).
Proof.
  intros Hlt. unfold for_range.
  rewrite (seqZ_cons a (b - a)) by lia. simpl.
  do 2 f_equal; lia.
Qed.

(** Induction on the number of iterations that are left. *)
Lemma for_range_ind {S : Type} (body : Z -> S -> S) b (P : Z -> S -> S -> Prop) :
  (forall a s, b <= a -> P a s s) ->
  (forall a s r, a < b -> P (a + 1) (body a s) r -> P a s r) ->
  forall a s, P a s (for_range a b body s).
Proof.
  intros Hdone Hstep a.
  remember (Z.to_nat (b - a)) as n eqn:Hn.
  revert a Hn. induction n as [|n IH]; intros a Hn s.
  - rewrite for_range_done by lia. apply Hdone. lia.
  - rewrite for_range_step by lia. apply Hstep; [lia|]. apply IH. lia.
Qed.

(** ** Buffer transformers that act entry by entry *)

Lemma pointwise_length t F grad :
  pointwise t F -> length (t grad) = length grad.
Proof.
  intros Ht.
  destruct (Nat.lt_trichotomy (length (t grad)) (length grad)) as [Hlt|[Heq|Hgt]];
    [exfalso | exact Heq | exfalso].
  - destruct (lookup_lt_is_Some_2 grad _ Hlt) as [v Hv].
    pose proof (Ht grad (length (t grad))) as Hj.
    rewrite Hv in Hj. simpl in Hj.
    apply lookup_lt_Some in Hj. lia.
  - destruct (lookup_lt_is_Some_2 (t grad) _ Hgt) as [v Hv].
    pose proof (Ht grad (length grad)) as Hj.
    rewrite Hv in Hj. rewrite (lookup_ge_None_2 grad) in Hj by lia.
    discriminate.
Qed.

Lemma pointwise_update f i :
  pointwise (update f i) (fun j => if decide (j = Z.to_nat i) then f else id).
Proof.
  intros grad j. unfold update.
  destruct (decide (j = Z.to_nat i)) as [->|Hne].
  - apply list_lookup_alter_eq.
  - rewrite list_lookup_alter_ne by congruence.
    destruct (grad !! j); reflexivity.
Qed.

Lemma store_update i v grad : store i v grad = update (fun _ => v) i grad.
Proof.
  unfold store, update. generalize (Z.to_nat i) as n.
  induction grad as [|g grad IH]; intros [|n]; simpl; try reflexivity.
  f_equal. apply IH.
Qed.

Lemma pointwise_store i v :
  pointwise (store i v) (fun j => if decide (j = Z.to_nat i) then (fun _ => v) else id).
Proof.
  intros grad j. rewrite store_update. apply pointwise_update.
Qed.

Lemma pointwise_for_range a b body (F : Z -> nat -> float -> float) :
  (forall i, pointwise (body i) (F i)) ->
  pointwise (for_range a b body) (fun j => for_range a b (fun i => F i j)).
Proof.
  intros Hbody grad j. revert a grad.
  apply (for_range_ind body b
           (fun a grad r => r !! j = for_range a b (fun i => F i j) <$> grad !! j)).
  - intros a grad Hle. destruct (grad !! j) as [v|]; simpl; [|reflexivity].
    rewrite for_range_done by exact Hle. reflexivity.
  - intros a grad r Hlt Hr. rewrite Hr, Hbody.
    destruct (grad !! j) as [v|]; simpl; [|reflexivity].
    rewrite (for_range_step a b) by exact Hlt. reflexivity.
Qed.

(** A loop that touches only the entry of its own index. *)
Lemma for_range_own_index a b (f : Z -> float -> float) (j : nat) v :
  0 <= a ->
  for_range a b (fun i => if decide (j = Z.to_nat i) then f i else id) v
  = if decide (a <= Z.of_nat j < b) then f (Z.of_nat j) v else v.
Proof.
  intros Ha. revert a v Ha.
  apply (for_range_ind (fun i => if decide (j = Z.to_nat i) then f i else id) b
           (fun a v r => 0 <= a ->
              r = if decide (a <= Z.of_nat j < b) then f (Z.of_nat j) v else v)).
  - intros a v Hle Ha. destruct (decide (a <= Z.of_nat j < b)); [lia | reflexivity].
  - intros a v r Hlt Hr Ha. rewrite Hr by lia.
    destruct (decide (j = Z.to_nat a)) as [->|Hne].
    + rewrite Z2Nat.id by lia.
      destruct (decide (a + 1 <= a < b)); [lia|].
      destruct (decide (a <= a < b)); [reflexivity | lia].
    + unfold id.
      destruct (decide (a + 1 <= Z.of_nat j < b)), (decide (a <= Z.of_nat j < b));
        try reflexivity; lia.
Qed.

Lemma for_range_lookup a b body (f : Z -> float -> float) grad (j : nat) :
  0 <= a ->
  (forall i, pointwise (body i)
               (fun j => if decide (j = Z.to_nat i) then f i else id)) ->
  for_range a b body grad !! j
  = (if decide (a <= Z.of_nat j < b) then f (Z.of_nat j) else id) <$> grad !! j.
Proof.
  intros Ha Hbody.
  rewrite (pointwise_for_range a b _
             (fun i j => if decide (j = Z.to_nat i) then f i else id))
    by exact Hbody.
  destruct (grad !! j) as [v|]; simpl; [|reflexivity].
  rewrite for_range_own_index by exact Ha.
  destruct (decide (a <= Z.of_nat j < b)); reflexivity.
Qed.

Lemma for_range_update_lookup a b (f : float -> float) grad (j : nat) :
  0 <= a ->
  for_range a b (update f) grad !! j
  = (if decide (a <= Z.of_nat j < b) then f else id) <$> grad !! j.
Proof.
  intros Ha. apply (for_range_lookup a b (update f) (fun _ => f)); [exact Ha|].
  intros i. apply pointwise_update.
Qed.

Lemma for_range_update_length a b (f : float -> float) grad :
  length (for_range a b (update f) grad) = length grad.
Proof.
  apply (pointwise_length _
           (fun j => for_range a b
                       (fun i => if decide (j = Z.to_nat i) then f else id))).
  apply pointwise_for_range. intros i. apply pointwise_update.
Qed.

Lemma for_range_ext {S : Type} a b (body body' : Z -> S -> S) s :
  (forall i s, a <= i < b -> body i s = body' i s) ->
  for_range a b body s = for_range a b body' s.
Proof.
  intros Hext. revert a s Hext.
  apply (for_range_ind body b
           (fun a s r =>
              (forall i s, a <= i < b -> body i s = body' i s) ->
              r = for_range a b body' s)).
  - intros a s Hle _. rewrite for_range_done by exact Hle. reflexivity.
  - intros a s r Hlt Hr Hext.
    rewrite (for_range_step a b body') by exact Hlt.
    rewrite <- Hext by lia. apply Hr. intros i s' Hi. apply Hext. lia.
Qed.

Lemma for_range_pointwise_length a b body (F : Z -> nat -> float -> float) grad :
  (forall i, pointwise (body i) (F i)) ->
  length (for_range a b body grad) = length grad.
Proof.
  intros Hbody.
  apply (pointwise_length _ (fun j => for_range a b (fun i => F i j))).
  apply pointwise_for_range. exact Hbody.
Qed.

(** One statement per parameter, each on the entry of its own position. *)
Lemma pointwise_for_params params body (f : Z -> float -> float) :
  (forall idx, pointwise (body idx)
                 (fun j => if decide (j = Z.to_nat idx) then f idx else id)) ->
  pointwise (for_params params body)
    (fun j => if decide (Z.of_nat j < size_ params) then f (Z.of_nat j) else id).
Proof.
  intros Hbody grad j. unfold for_params.
  rewrite (for_range_lookup 0 (size_ params) body f) by (lia || exact Hbody).
  destruct (decide (0 <= Z.of_nat j < size_ params)),
           (decide (Z.of_nat j < size_ params)); try reflexivity; lia.
Qed.

Lemma for_range_id {S : Type} a b (s : S) : for_range a b (fun _ => id) s = s.
Proof.
  revert a s.
  apply (for_range_ind (fun _ : Z => @id S) b (fun a s r => r = s)).
  - reflexivity.
  - intros a s r _ Hr. exact Hr.
Qed.

Lemma for_params_store_length params (c : Z -> float) grad :
  length (for_params params (fun idx => store idx (c idx)) grad) = length grad.
Proof.
  unfold for_params.
  apply (for_range_pointwise_length 0 (size_ params) _
           (fun idx j => if decide (j = Z.to_nat idx)
                         then fun _ => c idx else id)).
  intros idx. apply pointwise_store.
Qed.

(** ** A callee at an offset *)

Lemma at_offset_length n callee grad :
  (forall g, length (callee g) = length g) ->
  length (at_offset n callee grad) = length grad.
Proof.
  intros Hlen. unfold at_offset.
  rewrite length_app, Hlen, length_take, length_drop. lia.
Qed.

Lemma at_offset_lookup_lt n callee grad (j : nat) :
  (forall g, length (callee g) = length g) ->
  Z.of_nat j < n ->
  at_offset n callee grad !! j = grad !! j.
Proof.
  intros Hlen Hj.
  destruct (decide (j < length grad)%nat) as [Hin|Hout].
  - unfold at_offset. rewrite lookup_app_l by (rewrite length_take; lia).
    apply lookup_take_lt. lia.
  - rewrite (lookup_ge_None_2 grad) by lia.
    apply lookup_ge_None_2. rewrite at_offset_length by exact Hlen. lia.
Qed.

Lemma at_offset_lookup_ge n callee grad (j : nat) :
  (forall g, length (callee g) = length g) ->
  0 <= n <= Z.of_nat j ->
  at_offset n callee grad !! j
  = callee (drop (Z.to_nat n) grad) !! (j - Z.to_nat n)%nat.
Proof.
  intros Hlen Hj.
  destruct (decide (Z.to_nat n <= length grad)%nat) as [Hin|Hout].
  - unfold at_offset. rewrite lookup_app_r by (rewrite length_take; lia).
    rewrite length_take_le by exact Hin. reflexivity.
  - rewrite lookup_ge_None_2
      by (rewrite at_offset_length by exact Hlen; lia).
    symmetry. apply lookup_ge_None_2.
    rewrite Hlen, length_drop. lia.
Qed.

(** ** The hyperparameters of a leaf *)

Lemma param_get_outside params idx i :
  i < idx \/ idx + size_ params <= i -> param_get params idx i = None.
Proof.
  unfold size_. revert idx.
  induction params as [|p rest IH]; intros idx Hi; simpl; [reflexivity|].
  simpl in Hi. destruct (Z.eqb_spec i idx) as [->|Hne]; [lia|].
  apply IH. lia.
Qed.

Lemma param_set_outside params idx i v :
  i < idx \/ idx + size_ params <= i -> param_set params idx i v = None.
Proof.
  unfold size_. revert idx.
  induction params as [|p rest IH]; intros idx Hi; simpl; [reflexivity|].
  simpl in Hi. destruct (Z.eqb_spec i idx) as [->|Hne]; [lia|].
  rewrite IH by lia. reflexivity.
Qed.

Lemma param_get_inside params idx i :
  idx <= i < idx + size_ params ->
  param_get params idx i = params !! Z.to_nat (i - idx).
Proof.
  unfold size_. revert idx.
  induction params as [|p rest IH]; intros idx Hi; simpl in *; [lia|].
  destruct (Z.eqb_spec i idx) as [->|Hne].
  - rewrite Z.sub_diag. reflexivity.
  - rewrite IH by lia.
    replace (Z.to_nat (i - idx)) with (S (Z.to_nat (i - (idx + 1)))) by lia.
    reflexivity.
Qed.

Lemma param_set_inside params idx i v :
  idx <= i < idx + size_ params ->
  param_set params idx i v = Some (<[Z.to_nat (i - idx) := v]> params).
Proof.
  unfold size_. revert idx.
  induction params as [|p rest IH]; intros idx Hi; simpl in *; [lia|].
  destruct (Z.eqb_spec i idx) as [->|Hne].
  - rewrite Z.sub_diag. reflexivity.
  - rewrite IH by lia. simpl.
    replace (Z.to_nat (i - idx)) with (S (Z.to_nat (i - (idx + 1)))) by lia.
    reflexivity.
Qed.

Lemma param_set_length params idx i v params' :
  param_set params idx i v = Some params' -> length params' = length params.
Proof.
  revert idx params'.
  induction params as [|p rest IH]; intros idx params'; simpl; [discriminate|].
  destruct (i =? idx).
  - intros [= <-]. reflexivity.
  - destruct (param_set rest (idx + 1) i v) as [rest'|] eqn:Hrest;
      simpl; [|discriminate].
    intros [= <-]. simpl. f_equal. exact (IH _ _ Hrest).
Qed.

Lemma param_set_size_ params idx i v params' :
  param_set params idx i v = Some params' -> size_ params' = size_ params.
Proof.
  intros Hset. unfold size_. f_equal. exact (param_set_length _ _ _ _ _ Hset).
Qed.

(** ** The kernels *)

Section KernelFacts.

Context {M : Type} {metric : Metric M}.

Implicit Types (A B k : Kernel M) (grad : list float) (i : Z) (v : float).

Lemma size_nonneg k : 0 <= size k.
Proof.
  destruct k; simpl; unfold uadd, size_; try apply wrap_range; lia.
Qed.

Lemma size_Operator o A B : size (Operator o A B) = uadd (size A) (size B).
Proof. destruct o; reflexivity. Qed.

Lemma size_Operator_lt o A B : size (Operator o A B) < UINT_MODULUS.
Proof. rewrite size_Operator. apply wrap_range. Qed.

(** C3.  The value of a sum is the sum of the children's values and the
    value of a product is their product, at the same inputs. *)
Theorem value_Sum_Product A B x1 x2 :
  value (Sum A B) x1 x2 = (value A x1 x2 + value B x1 x2)%float /\
  value (Product A B) x1 x2 = (value A x1 x2 * value B x1 x2)%float.
Proof. split; reflexivity. Qed.

(** C6.  The size of an operator is the sum of its children's sizes
    modulo [2^32], whichever of [Sum] and [Product] it is; the size of a
    stationary kernel is the number of its own hyperparameters plus the
    size of its metric, again modulo [2^32]; the size of an additive
    kernel is the number of its own hyperparameters. *)
Theorem size_of_each_class A B st_spec (m : M) ad_spec subspace params :
  size (Sum A B) = uadd (size A) (size B) /\
  size (Product A B) = uadd (size A) (size B) /\
  size (Stationary st_spec m params)
  = uadd (Z.of_nat (length params)) (metric_size m) /\
  size (Additive ad_spec subspace params : Kernel M) = Z.of_nat (length params).
Proof.
  repeat split; simpl; try reflexivity.
  unfold uadd, size_. f_equal. lia.
Qed.

(** The sums are exact when they fit in an [unsigned]. *)
Lemma size_Operator_fits o A B :
  size A + size B < UINT_MODULUS ->
  size (Operator o A B) = size A + size B.
Proof.
  intros Hfit. rewrite size_Operator. apply uadd_exact.
  pose proof (size_nonneg A). pose proof (size_nonneg B). lia.
Qed.

Lemma size_Stationary_fits spec (m : M) params :
  0 <= metric_size m ->
  metric_size m + size_ params < UINT_MODULUS ->
  size (Stationary spec m params) = size_ params + metric_size m.
Proof.
  intros Hm Hfit. simpl. rewrite uadd_exact; unfold size_ in *; lia.
Qed.

(** C9.  The [ndim] of an operator is the [ndim] of its left child,
    whatever the right child is: nothing relates the two. *)
Theorem get_ndim_Operator A B :
  get_ndim (Sum A B) = get_ndim A /\ get_ndim (Product A B) = get_ndim A.
Proof. split; reflexivity. Qed.

(** C10.  An additive kernel with [k] hyperparameters answers [0.0] to
    [get_parameter(i)] for [i >= k], and [set_parameter(i, v)] for such an
    [i] leaves the object as it was. *)
Theorem Additive_index_past_parameters spec subspace params i v :
  Z.of_nat (length params) <= i ->
  get_parameter (Additive spec subspace params : Kernel M) i = 0%float /\
  set_parameter (Additive spec subspace params : Kernel M) i v
  = Additive spec subspace params.
Proof.
  intros Hi. simpl.
  rewrite param_get_outside, param_set_outside by (unfold size_; lia).
  split; reflexivity.
Qed.

(** *** Routing of parameter indices *)

Lemma get_parameter_Operator o A B i :
  get_parameter (Operator o A B) i
  = if i <? size A then get_parameter A i
    else get_parameter B (usub i (size A)).
Proof. destruct o; reflexivity. Qed.

Lemma set_parameter_Operator o A B i v :
  set_parameter (Operator o A B) i v
  = if i <? size A then Operator o (set_parameter A i v) B
    else Operator o A (set_parameter B (usub i (size A)) v).
Proof. destruct o; simpl; destruct (i <? size A); reflexivity. Qed.

Section ShapeFixed.

Hypothesis metric_unsigned : metric_size_unsigned M.
Hypothesis metric_fixed : metric_shape_fixed M.

Lemma set_parameter_Operator_shape o A B i v :
  (0 <= i < size A ->
   size (set_parameter A i v) = size A /\
   get_ndim (set_parameter A i v) = get_ndim A) ->
  (0 <= i - size A < size B ->
   size (set_parameter B (i - size A) v) = size B /\
   get_ndim (set_parameter B (i - size A) v) = get_ndim B) ->
  0 <= i < size (Operator o A B) ->
  size (set_parameter (Operator o A B) i v) = size (Operator o A B) /\
  get_ndim (set_parameter (Operator o A B) i v) = get_ndim (Operator o A B).
Proof.
  intros HA HB Hi.
  pose proof (size_nonneg A). pose proof (size_nonneg B).
  pose proof (size_Operator_lt o A B).
  assert (size (Operator o A B) <= size A + size B)
    by (rewrite size_Operator; apply wrap_le; lia).
  rewrite set_parameter_Operator.
  destruct (Z.ltb_spec i (size A)) as [Hlt|Hge].
  - destruct HA as [HsA HnA]; [lia|].
    rewrite !size_Operator, HsA. split; [reflexivity|].
    destruct o; exact HnA.
  - rewrite usub_exact by lia.
    destruct HB as [HsB _]; [lia|].
    rewrite !size_Operator, HsB. split; [reflexivity|].
    destruct o; reflexivity.
Qed.

Lemma set_parameter_shape k i v :
  0 <= i < size k ->
  size (set_parameter k i v) = size k /\
  get_ndim (set_parameter k i v) = get_ndim k.
Proof.
  revert i. induction k as [|A IHA B IHB|A IHA B IHB|spec m params|spec s params];
    intros i Hi.
  - simpl in Hi. lia.
  - apply (set_parameter_Operator_shape OpSum); auto.
  - apply (set_parameter_Operator_shape OpProduct); auto.
  - cbn [set_parameter].
    destruct (param_set params 0 i v) as [params'|] eqn:Hset.
    + simpl. rewrite (param_set_size_ _ _ _ _ _ Hset). split; reflexivity.
    + assert (size_ params <= i) as Hge.
      { destruct (Z.lt_ge_cases i (size_ params)) as [Hlt|Hge]; [|exact Hge].
        rewrite param_set_inside in Hset by lia. discriminate. }
      assert (0 <= size_ params) by (unfold size_; lia).
      pose proof (metric_unsigned m) as Hm.
      cbn [size] in Hi. unfold uadd in Hi.
      pose proof (wrap_range (metric_size m + size_ params)).
      pose proof (wrap_le (metric_size m + size_ params)).
      rewrite usub_exact by lia.
      destruct (metric_fixed m (i - size_ params) v) as [Hs Hn]; [lia|].
      simpl. rewrite Hs, Hn. split; reflexivity.
  - cbn [set_parameter].
    destruct (param_set params 0 i v) as [params'|] eqn:Hset; simpl.
    + rewrite (param_set_size_ _ _ _ _ _ Hset). split; reflexivity.
    + split; reflexivity.
Qed.

(** C8.  [set_parameter], at an index of the parameter vector, changes
    neither [size()] nor [get_ndim()] of a kernel, of whatever class
    (operator, stationary or additive). *)
Theorem set_parameter_keeps_shape k i v :
  0 <= i < size k ->
  size (set_parameter k i v) = size k /\
  get_ndim (set_parameter k i v) = get_ndim k.
Proof. apply set_parameter_shape. Qed.

(** C5.  An operator routes index [i] to its left child when [i] is
    below the left child's size and to its right child, at [i] minus that
    size, otherwise, in [get_parameter] and in [set_parameter] alike; so
    a value that was set is the value that is read back, as long as the
    child the index is routed to reads back what was set in it. *)
Theorem Operator_parameter_routing o A B i v :
  0 <= i < UINT_MODULUS ->
  get_parameter (Operator o A B) i
  = (if i <? size A then get_parameter A i
     else get_parameter B (i - size A)) /\
  set_parameter (Operator o A B) i v
  = (if i <? size A then Operator o (set_parameter A i v) B
     else Operator o A (set_parameter B (i - size A) v)) /\
  ((i < size A -> get_parameter (set_parameter A i v) i = v) ->
   (size A <= i ->
    get_parameter (set_parameter B (i - size A) v) (i - size A) = v) ->
   get_parameter (set_parameter (Operator o A B) i v) i = v).
Proof.
  intros Hi. pose proof (size_nonneg A) as HA.
  rewrite get_parameter_Operator, set_parameter_Operator.
  destruct (Z.ltb_spec i (size A)) as [Hlt|Hge].
  - repeat split; try reflexivity.
    intros Hleft _. rewrite get_parameter_Operator.
    destruct (set_parameter_shape A i v) as [-> _]; [lia|].
    destruct (Z.ltb_spec i (size A)); [|lia]. apply Hleft. exact Hlt.
  - rewrite usub_exact by lia.
    repeat split; try reflexivity.
    intros _ Hright. rewrite get_parameter_Operator.
    destruct (Z.ltb_spec i (size A)); [lia|].
    rewrite usub_exact by lia. apply Hright. exact Hge.
Qed.

End ShapeFixed.

(** *** The gradient of an additive kernel, entry by entry *)

Lemma Additive_gradient_pointwise spec subspace params (x1 x2 : list float) :
  pointwise (gradient (Additive spec subspace params : Kernel M) x1 x2)
    (fun j =>
       if decide (Z.of_nat j < size_ params)
       then fun _ => additive_partial spec subspace params x1 x2 (Z.of_nat j)
       else id).
Proof.
  intros grad j. destruct params as [|p rest].
  - cbn [gradient]. unfold for_params, size_. simpl length.
    rewrite for_range_done by lia.
    destruct (decide _) as [Hlt|_]; [simpl in Hlt; lia|].
    destruct (grad !! j); reflexivity.
  - cbn [gradient]. generalize (p :: rest). clear p rest. intros params.
    set (term := fun (i idx : Z) (g : float) =>
           (g + ad_param_gradient spec idx params
                  (load x1 (get_axis subspace i))
                  (load x2 (get_axis subspace i)))%float).
    assert (Hinit : pointwise (for_params params (fun idx => store idx 0%float))
              (fun j => if decide (Z.of_nat j < size_ params)
                        then fun _ => 0%float else id)).
    { apply (pointwise_for_params params _ (fun _ _ => 0%float)).
      intros idx. apply pointwise_store. }
    assert (Houter : forall i,
              pointwise
                (for_params params (fun idx => update (term i idx) idx))
                (fun j => if decide (Z.of_nat j < size_ params)
                          then term i (Z.of_nat j) else id)).
    { intros i. apply (pointwise_for_params params _ (term i)).
      intros idx. apply pointwise_update. }
    rewrite (pointwise_for_range 0 (get_naxes subspace) _ _ Houter).
    rewrite Hinit.
    destruct (grad !! j) as [g|]; simpl; [|reflexivity].
    destruct (decide (Z.of_nat j < size_ params)).
    + reflexivity.
    + rewrite for_range_id. reflexivity.
Qed.

Lemma Additive_gradient_length spec subspace params (x1 x2 : list float) grad :
  length (gradient (Additive spec subspace params : Kernel M) x1 x2 grad)
  = length grad.
Proof.
  eapply pointwise_length. apply Additive_gradient_pointwise.
Qed.

Section Gradients.

Hypothesis metric_keeps : metric_gradient_keeps_length M.

Lemma gradient_length k (x1 x2 : list float) grad :
  length (gradient k x1 x2 grad) = length grad.
Proof.
  revert grad.
  induction k as [|A IHA B IHB|A IHA B IHB|spec m params|spec s params];
    intros grad.
  - reflexivity.
  - simpl. rewrite at_offset_length by exact IHB. apply IHA.
  - simpl. rewrite !for_range_update_length.
    rewrite at_offset_length by exact IHB. apply IHA.
  - simpl. rewrite for_range_update_length.
    rewrite at_offset_length by (intros g; apply metric_keeps).
    apply for_params_store_length.
  - apply Additive_gradient_length.
Qed.

(** *** The gradient of an operator, half by half *)

Lemma Sum_gradient_left A B (x1 x2 : list float) grad (j : nat) :
  Z.of_nat j < size A ->
  gradient (Sum A B) x1 x2 grad !! j = gradient A x1 x2 grad !! j.
Proof.
  intros Hj. simpl.
  apply at_offset_lookup_lt; [intros g; apply gradient_length | exact Hj].
Qed.

Lemma Sum_gradient_right A B (x1 x2 : list float) grad (j : nat) :
  size A <= Z.of_nat j ->
  gradient (Sum A B) x1 x2 grad !! j
  = gradient B x1 x2 (drop (Z.to_nat (size A)) (gradient A x1 x2 grad))
      !! (j - Z.to_nat (size A))%nat.
Proof.
  intros Hj. simpl. pose proof (size_nonneg A).
  apply at_offset_lookup_ge; [intros g; apply gradient_length | lia].
Qed.

Lemma Product_gradient_left A B (x1 x2 : list float) grad (j : nat) :
  Z.of_nat j < size A ->
  gradient (Product A B) x1 x2 grad !! j
  = (fun g => (g * value B x1 x2)%float) <$> gradient A x1 x2 grad !! j.
Proof.
  intros Hj. pose proof (size_nonneg A). cbn [gradient].
  rewrite for_range_update_lookup by lia.
  destruct (decide (size A <= Z.of_nat j < size (Product A B))); [lia|].
  rewrite option_fmap_id.
  rewrite for_range_update_lookup by lia.
  destruct (decide (0 <= Z.of_nat j < size A)); [|lia].
  f_equal.
  apply at_offset_lookup_lt; [intros g; apply gradient_length | exact Hj].
Qed.

Lemma Product_gradient_right A B (x1 x2 : list float) grad (j : nat) :
  size A <= Z.of_nat j < size (Product A B) ->
  gradient (Product A B) x1 x2 grad !! j
  = (fun g => (g * value A x1 x2)%float)
      <$> gradient B x1 x2 (drop (Z.to_nat (size A)) (gradient A x1 x2 grad))
            !! (j - Z.to_nat (size A))%nat.
Proof.
  intros Hj. pose proof (size_nonneg A). cbn [gradient].
  rewrite for_range_update_lookup by lia.
  destruct (decide (size A <= Z.of_nat j < size (Product A B))); [|lia].
  f_equal.
  rewrite for_range_update_lookup by lia.
  destruct (decide (0 <= Z.of_nat j < size A)); [lia|].
  rewrite option_fmap_id.
  apply at_offset_lookup_ge; [intros g; apply gradient_length | lia].
Qed.

(** *** The gradient of a stationary kernel, block by block *)

Lemma Stationary_gradient_own_block spec (m : M) params (x1 x2 : list float)
    grad (j : nat) :
  Z.of_nat j < size_ params ->
  gradient (Stationary spec m params) x1 x2 grad !! j
  = (fun _ => st_param_gradient spec (Z.of_nat j) params (metric_value m x1 x2))
      <$> grad !! j.
Proof.
  intros Hj. cbn [gradient].
  rewrite for_range_update_lookup by (unfold size_; lia).
  destruct (decide (size_ params <= Z.of_nat j < _)); [lia|].
  rewrite option_fmap_id.
  rewrite at_offset_lookup_lt by (exact Hj || intros g; apply metric_keeps).
  rewrite (pointwise_for_params params _
             (fun idx _ => st_param_gradient spec idx params
                             (metric_value m x1 x2)))
    by (intros idx; apply pointwise_store).
  destruct (decide (Z.of_nat j < size_ params)); [reflexivity | lia].
Qed.

Lemma Stationary_gradient_metric_block spec (m : M) params
    (x1 x2 : list float) grad (j : nat) :
  size_ params <= Z.of_nat j < size (Stationary spec m params) ->
  gradient (Stationary spec m params) x1 x2 grad !! j
  = (fun g =>
       (g * st_radial_gradient spec params (metric_value m x1 x2))%float)
      <$> metric_gradient m x1 x2
            (drop (Z.to_nat (size_ params))
               (for_params params
                  (fun idx =>
                     store idx
                       (st_param_gradient spec idx params
                          (metric_value m x1 x2)))
                  grad))
            !! (j - Z.to_nat (size_ params))%nat.
Proof.
  intros Hj. cbn [gradient].
  rewrite for_range_update_lookup by (unfold size_; lia).
  destruct (decide (size_ params <= Z.of_nat j < _)); [|lia].
  f_equal.
  apply at_offset_lookup_ge; [intros g; apply metric_keeps |].
  unfold size_ in *. lia.
Qed.

(** *** The gradient does not depend on what the buffer held *)

Section OwnGradient.

Hypothesis metric_writes : metric_gradient_writes_all M.

Lemma fits_Operator o A B :
  fits (Operator o A B) ->
  fits A /\ fits B /\ size (Operator o A B) = size A + size B.
Proof.
  intros Hfits.
  assert (fits A && fits B && (size A + size B <? UINT_MODULUS)) as Hall
    by (destruct o; exact Hfits).
  apply andb_True in Hall as [Hall Hlt]. apply andb_True in Hall as [HA HB].
  apply Is_true_true, Z.ltb_lt in Hlt.
  repeat split; try assumption. apply size_Operator_fits. exact Hlt.
Qed.

Lemma fits_Stationary spec (m : M) params :
  fits (Stationary spec m params) ->
  0 <= metric_size m /\
  size (Stationary spec m params) = size_ params + metric_size m.
Proof.
  intros Hfits. cbn [fits] in Hfits.
  apply andb_True in Hfits as [Hm Hlt].
  apply Is_true_true, Z.leb_le in Hm. apply Is_true_true, Z.ltb_lt in Hlt.
  split; [exact Hm|]. apply size_Stationary_fits; assumption.
Qed.

Lemma lookup_const_fmap (c : float) (l l' : list float) (j : nat) :
  (j < length l)%nat -> (j < length l')%nat ->
  (fun _ => c) <$> l !! j = (fun _ => c) <$> l' !! j.
Proof.
  intros Hl Hl'.
  destruct (lookup_lt_is_Some_2 l j Hl) as [a ->].
  destruct (lookup_lt_is_Some_2 l' j Hl') as [a' ->].
  reflexivity.
Qed.

Lemma gradient_any_buffer k (x1 x2 : list float) :
  fits k ->
  forall grad grad' (j : nat),
    Z.of_nat j < size k ->
    size k <= Z.of_nat (length grad) ->
    size k <= Z.of_nat (length grad') ->
    gradient k x1 x2 grad !! j = gradient k x1 x2 grad' !! j.
Proof.
  induction k as [|A IHA B IHB|A IHA B IHB|spec m params|spec s params];
    intros Hfits grad grad' j Hj Hlen Hlen'.
  - simpl in Hj. lia.
  - destruct (fits_Operator OpSum A B Hfits) as (HA & HB & Hsize).
    cbn [Operator] in Hsize. rewrite Hsize in *.
    pose proof (size_nonneg A). pose proof (size_nonneg B).
    destruct (decide (Z.of_nat j < size A)) as [Hl|Hr].
    + rewrite !Sum_gradient_left by exact Hl. apply IHA; [exact HA|lia..].
    + rewrite !Sum_gradient_right by lia.
      apply IHB; [exact HB | lia | |];
        rewrite length_drop, gradient_length; lia.
  - destruct (fits_Operator OpProduct A B Hfits) as (HA & HB & Hsize).
    cbn [Operator] in Hsize.
    pose proof (size_nonneg A). pose proof (size_nonneg B).
    destruct (decide (Z.of_nat j < size A)) as [Hl|Hr].
    + rewrite !Product_gradient_left by exact Hl. f_equal.
      apply IHA; [exact HA|lia..].
    + rewrite !Product_gradient_right by lia. f_equal.
      apply IHB; [exact HB | lia | |];
        rewrite length_drop, gradient_length; lia.
  - destruct (fits_Stationary spec m params Hfits) as (Hm & Hsize).
    assert (0 <= size_ params) by (unfold size_; lia).
    destruct (decide (Z.of_nat j < size_ params)) as [Hl|Hr].
    + rewrite !Stationary_gradient_own_block by exact Hl.
      apply lookup_const_fmap; lia.
    + rewrite !Stationary_gradient_metric_block by lia. f_equal.
      apply metric_writes; [lia | |];
        rewrite length_drop, for_params_store_length; lia.
  - cbn [size] in *. rewrite !Additive_gradient_pointwise.
    destruct (decide (Z.of_nat j < size_ params)); [|lia].
    apply lookup_const_fmap; lia.
Qed.

Lemma own_gradient_length k (x1 x2 : list float) :
  Z.of_nat (length (own_gradient k x1 x2)) = size k.
Proof.
  unfold own_gradient. rewrite gradient_length, length_replicate.
  pose proof (size_nonneg k). lia.
Qed.

Lemma gradient_own k (x1 x2 : list float) grad (j : nat) :
  fits k ->
  Z.of_nat j < size k ->
  size k <= Z.of_nat (length grad) ->
  gradient k x1 x2 grad !! j = own_gradient k x1 x2 !! j.
Proof.
  intros Hfits Hj Hlen. apply gradient_any_buffer; try assumption.
  rewrite length_replicate. pose proof (size_nonneg k). lia.
Qed.


End OwnGradient.

End Gradients.

(** C7.  An additive kernel whose subspace selects no axis has value
    [0.0], and its gradient writes [0.0] into every one of its [size()]
    entries, whatever the inputs and the hyperparameters. *)
Theorem Additive_no_axes spec subspace params (x1 x2 : list float) grad :
  get_naxes subspace = 0 ->
  size (Additive spec subspace params : Kernel M) <= Z.of_nat (length grad) ->
  value (Additive spec subspace params : Kernel M) x1 x2 = 0%float /\
  (forall i,
     0 <= i < size (Additive spec subspace params : Kernel M) ->
     entry (gradient (Additive spec subspace params : Kernel M) x1 x2 grad) i
     = Some 0%float).
Proof.
  intros Hnaxes Hlen. cbn [size] in *. split.
  - cbn [value]. rewrite Hnaxes. apply for_range_done. lia.
  - intros i Hi. unfold entry. rewrite Additive_gradient_pointwise.
    rewrite Z2Nat.id by lia.
    destruct (decide (i < size_ params)); [|lia].
    destruct (lookup_lt_is_Some_2 grad (Z.to_nat i)) as [g ->]; [lia|].
    simpl. f_equal. unfold additive_partial. rewrite Hnaxes.
    apply for_range_done. lia.
Qed.

End KernelFacts.

(** ** The example objects *)

Lemma ScaledEuclidean_keeps_length : metric_gradient_keeps_length ScaledEuclidean.
Proof. intros m x1 x2 grad. simpl. unfold store. apply length_insert. Qed.

Lemma ScaledEuclidean_writes_all : metric_gradient_writes_all ScaledEuclidean.
Proof.
  intros m x1 x2 grad grad' j Hj Hlen Hlen'. simpl in *.
  assert (j = 0%nat) as -> by lia. unfold store.
  rewrite !list_lookup_insert_eq by lia. reflexivity.
Qed.

Lemma ScaledEuclidean_size_unsigned : metric_size_unsigned ScaledEuclidean.
Proof. intros m. simpl. unfold UINT_MODULUS. lia. Qed.

Lemma ScaledEuclidean_shape_fixed : metric_shape_fixed ScaledEuclidean.
Proof.
  intros m i v Hi. simpl in *. split; [reflexivity|].
  destruct (i =? 0); reflexivity.
Qed.

Example size_example :
  size kA = 2 /\ size kB = 2 /\ size (Sum kA kB) = 4 /\ size (Product kA kB) = 4.
Proof. repeat split; reflexivity. Qed.

Example value_example :
  value kA p1 p2 = 26%float /\ value kB p1 p2 = 9.5%float /\
  value (Sum kA kB) p1 p2 = 35.5%float /\
  value (Product kA kB) p1 p2 = 247%float.
Proof. repeat split; vm_compute; reflexivity. Qed.

Example gradient_example :
  gradient kA p1 p2 (zeros 2) = [13%float; 26%float] /\
  gradient kB p1 p2 (zeros 2) = [3%float; 1%float] /\
  gradient (Sum kA kB) p1 p2 (zeros 5)
  = [13%float; 26%float; 3%float; 1%float; 0%float] /\
  gradient (Product kA kB) p1 p2 (zeros 5)
  = [123.5%float; 247%float; 78%float; 26%float; 0%float].
Proof. repeat split; vm_compute; reflexivity. Qed.

Example parameter_example :
  map (get_parameter (Sum kA kB)) [0; 1; 2; 3]
  = [2%float; 1%float; 3%float; 0.5%float] /\
  map (get_parameter (set_parameter (Sum kA kB) 3 7%float)) [0; 1; 2; 3]
  = [2%float; 1%float; 3%float; 7%float].
Proof. split; vm_compute; reflexivity. Qed.

(** Children that disagree on [ndim] are combined all the same. *)
Example ndim_mismatch_example :
  let narrow : Kernel ScaledEuclidean :=
    Additive affine_product
      {| get_naxes := 1; get_axis := fun i => i; subspace_get_ndim := 1 |}
      [3%float; 0.5%float] in
  get_ndim kA = 2 /\ get_ndim narrow = 1 /\
  get_ndim (Sum kA narrow) = 2 /\ get_ndim (Product narrow kA) = 1 /\
  value (Sum kA narrow) p1 p2 = 35.5%float.
Proof. repeat split; vm_compute; reflexivity. Qed.

(** ** The theorems at the example objects *)


Lemma Operator_parameter_routing_witness :
  get_parameter (Operator OpSum kA kB) 3
  = (if 3 <? size kA then get_parameter kA 3
     else get_parameter kB (3 - size kA)) /\
  set_parameter (Operator OpSum kA kB) 3 7%float
  = (if 3 <? size kA then Operator OpSum (set_parameter kA 3 7%float) kB
     else Operator OpSum kA (set_parameter kB (3 - size kA) 7%float)) /\
  get_parameter (set_parameter (Operator OpSum kA kB) 3 7%float) 3 = 7%float.
Proof.
  destruct (Operator_parameter_routing
              ScaledEuclidean_size_unsigned ScaledEuclidean_shape_fixed
              OpSum kA kB 3 7%float) as (Hget & Hset & Hback).
  - unfold UINT_MODULUS. lia.
  - split; [exact Hget|]. split; [exact Hset|].
    apply Hback.
    + intros Hlt. vm_compute in Hlt. discriminate.
    + intros _. vm_compute. reflexivity.
Defined.

Lemma set_parameter_keeps_shape_witness :
  size (set_parameter (Product kA kB) 1 7%float) = size (Product kA kB) /\
  get_ndim (set_parameter (Product kA kB) 1 7%float) = get_ndim (Product kA kB).
Proof.
  apply (set_parameter_keeps_shape
           ScaledEuclidean_size_unsigned ScaledEuclidean_shape_fixed
           (Product kA kB) 1 7%float).
  vm_compute. split; [discriminate | reflexivity].
Defined.

Lemma Additive_no_axes_witness :
  value (Additive affine_product no_axis [3%float; 0.5%float]
           : Kernel ScaledEuclidean) p1 p2 = 0%float /\
  (forall i,
     0 <= i < size (Additive affine_product no_axis [3%float; 0.5%float]
                      : Kernel ScaledEuclidean) ->
     entry (gradient (Additive affine_product no_axis [3%float; 0.5%float]
                        : Kernel ScaledEuclidean) p1 p2
              [1%float; 1%float; 1%float]) i
     = Some 0%float).
Proof.
  apply (Additive_no_axes affine_product no_axis [3%float; 0.5%float] p1 p2
           [1%float; 1%float; 1%float]).
  - reflexivity.
  - vm_compute. discriminate.
Defined.

Lemma Additive_index_past_parameters_witness :
  get_parameter (kB : Kernel ScaledEuclidean) 2 = 0%float /\
  set_parameter kB 2 7%float = kB.
Proof.
  apply (Additive_index_past_parameters affine_product first_axis
           [3%float; 0.5%float] 2 7%float).
  simpl. lia.
Defined.

(** ** More on the parameter vector *)

Lemma param_get_0 params i :
  0 <= i < size_ params -> param_get params 0 i = params !! Z.to_nat i.
Proof.
  intros Hi. rewrite param_get_inside by lia. rewrite Z.sub_0_r. reflexivity.
Qed.

Lemma param_set_0 params i v :
  0 <= i < size_ params -> param_set params 0 i v = Some (store i v params).
Proof.
  intros Hi. rewrite param_set_inside by lia. rewrite Z.sub_0_r. reflexivity.
Qed.

Lemma size_store i v params : size_ (store i v params) = size_ params.
Proof. unfold size_, store. rewrite length_insert. reflexivity. Qed.

Lemma load_inside params i p :
  params !! Z.to_nat i = Some p -> load params i = p.
Proof. intros Hp. unfold load. rewrite Hp. reflexivity. Qed.

Lemma load_outside params i :
  size_ params <= i -> load params i = 0%float.
Proof.
  intros Hi. unfold load, size_ in *.
  rewrite lookup_ge_None_2 by lia. reflexivity.
Qed.

Lemma store_outside params i v :
  size_ params <= i -> store i v params = params.
Proof. intros Hi. unfold store, size_ in *. apply list_insert_ge. lia. Qed.

(** The if-chains of a leaf are an array access behind a bounds check. *)
Lemma param_get_load params i :
  0 <= i ->
  param_get params 0 i
  = if i <? size_ params then Some (load params i) else None.
Proof.
  intros Hi. destruct (Z.ltb_spec i (size_ params)) as [Hlt|Hge].
  - rewrite param_get_0 by lia.
    destruct (lookup_lt_is_Some_2 params (Z.to_nat i)) as [p Hp];
      [unfold size_ in Hlt; lia|].
    rewrite Hp. f_equal. symmetry. apply load_inside. exact Hp.
  - apply param_get_outside. lia.
Qed.

Lemma param_set_store params i v :
  0 <= i ->
  param_set params 0 i v
  = if i <? size_ params then Some (store i v params) else None.
Proof.
  intros Hi. destruct (Z.ltb_spec i (size_ params)) as [Hlt|Hge].
  - apply param_set_0. lia.
  - apply param_set_outside. lia.
Qed.

Lemma load_store params i j v :
  0 <= i < size_ params -> 0 <= j ->
  load (store i v params) j = if i =? j then v else load params j.
Proof.
  intros Hi Hj. unfold load, store, size_ in *.
  destruct (Z.eqb_spec i j) as [->|Hne].
  - rewrite list_lookup_insert_eq by lia. reflexivity.
  - rewrite list_lookup_insert_ne by lia. reflexivity.
Qed.

Section ParameterVector.

Context {M : Type} {metric : Metric M}.

Implicit Types (A B C k : Kernel M) (i j : Z) (v : float).

(** X1.  A stationary kernel with [k] hyperparameters keeps them at the
    indices below [k] and hands every other index [i] to its metric as
    [i - k], when reading and when writing; writing a hyperparameter
    leaves the metric alone and writing to the metric leaves the
    hyperparameters alone. *)
Theorem Stationary_parameter_routing spec (m : M) params i v :
  0 <= i < UINT_MODULUS ->
  get_parameter (Stationary spec m params) i
  = (if i <? Z.of_nat (length params) then load params i
     else metric_get_parameter m (i - Z.of_nat (length params))) /\
  set_parameter (Stationary spec m params) i v
  = (if i <? Z.of_nat (length params)
     then Stationary spec m (store i v params)
     else Stationary spec
            (metric_set_parameter m (i - Z.of_nat (length params)) v) params).
Proof.
  intros Hi. fold (size_ params). cbn [get_parameter set_parameter].
  rewrite param_get_load, param_set_store by lia.
  destruct (Z.ltb_spec i (size_ params)) as [Hlt|Hge].
  - split; reflexivity.
  - rewrite usub_exact by (unfold size_ in *; lia). split; reflexivity.
Qed.

(** X2.  The parameters of an additive kernel are an array behind a
    bounds check: [get_parameter(i)] is the [i]-th hyperparameter, or
    [0.0] past the last one, and [set_parameter(i, v)] replaces the
    [i]-th hyperparameter and nothing else, or nothing at all past the
    last one. *)
Theorem Additive_parameter_access spec subspace params i v :
  0 <= i ->
  get_parameter (Additive spec subspace params : Kernel M) i = load params i /\
  set_parameter (Additive spec subspace params : Kernel M) i v
  = Additive spec subspace (store i v params).
Proof.
  intros Hi. cbn [get_parameter set_parameter].
  rewrite param_get_load, param_set_store by lia.
  destruct (Z.ltb_spec i (size_ params)) as [Hlt|Hge].
  - split; reflexivity.
  - rewrite load_outside, store_outside by lia. split; reflexivity.
Qed.

Section WholeTree.

Hypothesis metric_unsigned : metric_size_unsigned M.
Hypothesis metric_fixed : metric_shape_fixed M.

(** Where an operator sends an index of its parameter vector. *)
Lemma Operator_index_cases o A B i :
  0 <= i < size (Operator o A B) ->
  (0 <= i < size A /\ (i <? size A) = true) \/
  (0 <= i - size A < size B /\ (i <? size A) = false /\
   usub i (size A) = i - size A).
Proof.
  intros Hi.
  pose proof (size_nonneg A). pose proof (size_nonneg B).
  pose proof (size_Operator_lt o A B).
  assert (size (Operator o A B) <= size A + size B)
    by (rewrite size_Operator; apply wrap_le; lia).
  destruct (Z.ltb_spec i (size A)) as [Hlt|Hge]; [left | right].
  - split; [lia | reflexivity].
  - rewrite usub_exact by lia. repeat split; lia.
Qed.

Lemma Stationary_index_cases spec (m : M) params i :
  0 <= i < size (Stationary spec m params) ->
  0 <= i < size_ params \/
  (size_ params <= i /\ 0 <= i - size_ params < metric_size m /\
   usub i (size_ params) = i - size_ params).
Proof.
  intros Hi. cbn [size] in Hi. unfold uadd in Hi.
  pose proof (metric_unsigned m).
  assert (0 <= size_ params) by (unfold size_; lia).
  pose proof (wrap_range (metric_size m + size_ params)).
  pose proof (wrap_le (metric_size m + size_ params)).
  destruct (Z.lt_ge_cases i (size_ params)) as [Hlt|Hge]; [left; lia | right].
  rewrite usub_exact by lia. repeat split; lia.
Qed.

Section RoundTrip.

Hypothesis metric_back : metric_round_trip M.

Lemma get_set_parameter_Operator o A B i v :
  (0 <= i < size A -> get_parameter (set_parameter A i v) i = v) ->
  (0 <= i - size A < size B ->
   get_parameter (set_parameter B (i - size A) v) (i - size A) = v) ->
  0 <= i < size (Operator o A B) ->
  get_parameter (set_parameter (Operator o A B) i v) i = v.
Proof.
  intros HA HB Hi.
  rewrite set_parameter_Operator.
  destruct (Operator_index_cases o A B i Hi)
    as [(Hin & Hlt)|(Hin & Hge & Hsub)].
  - rewrite Hlt, get_parameter_Operator.
    destruct (set_parameter_shape metric_unsigned metric_fixed A i v Hin)
      as [-> _].
    rewrite Hlt. apply HA. exact Hin.
  - rewrite Hge, Hsub, get_parameter_Operator, Hge, Hsub.
    apply HB. exact Hin.
Qed.

(** X3.  In a kernel tree of any shape, [get_parameter(i)] after
    [set_parameter(i, v)] returns [v], for every index [i] below
    [size()], provided the metrics in the tree read back what is set in
    them. *)
Theorem get_set_parameter k i v :
  0 <= i < size k -> get_parameter (set_parameter k i v) i = v.
Proof.
  revert i.
  induction k as [|A IHA B IHB|A IHA B IHB|spec m params|spec s params];
    intros i Hi.
  - simpl in Hi. lia.
  - apply (get_set_parameter_Operator OpSum); auto.
  - apply (get_set_parameter_Operator OpProduct); auto.
  - cbn [set_parameter].
    destruct (Stationary_index_cases spec m params i Hi)
      as [Hown|(Hge & Hin & Hsub)].
    + rewrite param_set_0 by exact Hown. cbn [get_parameter].
      rewrite param_get_load, size_store by lia.
      destruct (Z.ltb_spec i (size_ params)); [|lia].
      rewrite load_store by lia. rewrite Z.eqb_refl. reflexivity.
    + rewrite param_set_outside by lia. cbn [get_parameter].
      rewrite param_get_outside by lia.
      rewrite Hsub. apply metric_back. exact Hin.
  - cbn [size] in Hi. cbn [set_parameter].
    rewrite param_set_0 by exact Hi. cbn [get_parameter].
    rewrite param_get_load, size_store by lia.
    destruct (Z.ltb_spec i (size_ params)); [|lia].
    rewrite load_store by lia. rewrite Z.eqb_refl. reflexivity.
Qed.

End RoundTrip.

Section Independence.

Hypothesis metric_others : metric_set_independent M.

Lemma get_set_other_Operator o A B i j v :
  (forall j', 0 <= i < size A -> 0 <= j' < size A -> i <> j' ->
     get_parameter (set_parameter A i v) j' = get_parameter A j') ->
  (forall j', 0 <= i - size A < size B -> 0 <= j' < size B ->
     i - size A <> j' ->
     get_parameter (set_parameter B (i - size A) v) j' = get_parameter B j') ->
  0 <= i < size (Operator o A B) ->
  0 <= j < size (Operator o A B) ->
  i <> j ->
  get_parameter (set_parameter (Operator o A B) i v) j
  = get_parameter (Operator o A B) j.
Proof.
  intros HA HB Hi Hj Hne.
  rewrite set_parameter_Operator, (get_parameter_Operator o A B).
  destruct (Operator_index_cases o A B i Hi)
    as [(Hin & Hlt)|(Hin & Hge & Hsub)];
  destruct (Operator_index_cases o A B j Hj)
    as [(Hjn & Hjlt)|(Hjn & Hjge & Hjsub)].
  - rewrite Hlt, get_parameter_Operator.
    destruct (set_parameter_shape metric_unsigned metric_fixed A i v Hin)
      as [-> _].
    rewrite Hjlt. apply HA; assumption.
  - rewrite Hlt, get_parameter_Operator.
    destruct (set_parameter_shape metric_unsigned metric_fixed A i v Hin)
      as [-> _].
    rewrite Hjge. reflexivity.
  - rewrite Hge, get_parameter_Operator, Hjlt. reflexivity.
  - rewrite Hge, Hsub, get_parameter_Operator, Hjge, Hjsub.
    apply HB; [assumption | assumption | lia].
Qed.

(** X4.  In a kernel tree of any shape, [set_parameter(i, v)] changes no
    entry of the parameter vector but the [i]-th: [get_parameter(j)] is
    what it was for every other index [j] below [size()], provided the
    same holds of the metrics in the tree. *)
Theorem get_set_parameter_other k i j v :
  0 <= i < size k -> 0 <= j < size k -> i <> j ->
  get_parameter (set_parameter k i v) j = get_parameter k j.
Proof.
  revert i j.
  induction k as [|A IHA B IHB|A IHA B IHB|spec m params|spec s params];
    intros i j Hi Hj Hne.
  - simpl in Hi. lia.
  - apply (get_set_other_Operator OpSum); auto.
  - apply (get_set_other_Operator OpProduct); auto.
  - cbn [set_parameter].
    destruct (Stationary_index_cases spec m params i Hi)
      as [Hown|(Hge & Hin & Hsub)];
    destruct (Stationary_index_cases spec m params j Hj)
      as [Hjown|(Hjge & Hjin & Hjsub)].
    + rewrite param_set_0 by exact Hown. cbn [get_parameter].
      rewrite !param_get_load, size_store by lia.
      destruct (Z.ltb_spec j (size_ params)); [|lia].
      rewrite load_store by lia.
      destruct (Z.eqb_spec i j); [lia | reflexivity].
    + rewrite param_set_0 by exact Hown. cbn [get_parameter].
      rewrite !param_get_outside by (rewrite ?size_store; lia).
      rewrite size_store. reflexivity.
    + rewrite param_set_outside by lia. cbn [get_parameter].
      rewrite param_get_load by lia.
      destruct (Z.ltb_spec j (size_ params)); [reflexivity | lia].
    + rewrite param_set_outside by lia. cbn [get_parameter].
      rewrite param_get_outside by lia.
      rewrite Hsub, Hjsub. apply metric_others; [assumption..|lia].
  - cbn [size] in Hi, Hj. cbn [set_parameter].
    rewrite param_set_0 by exact Hi. cbn [get_parameter].
    rewrite !param_get_load, size_store by lia.
    destruct (Z.ltb_spec j (size_ params)); [|lia].
    rewrite load_store by lia.
    destruct (Z.eqb_spec i j); [lia | reflexivity].
Qed.

End Independence.

End WholeTree.

End ParameterVector.

(** ** More on loops and offsets *)

Lemma for_range_last {S : Type} a b (body : Z -> S -> S) s :
  a <= b -> for_range a (b + 1) body s = body b (for_range a b body s).
Proof.
  revert a s.
  apply (for_range_ind body b
           (fun a s r => a <= b -> for_range a (b + 1) body s = body b r)).
  - intros a s Hge Hle. assert (a = b) as -> by lia.
    rewrite for_range_step by lia. apply for_range_done. lia.
  - intros a s r Hlt Hr _. rewrite for_range_step by lia. apply Hr. lia.
Qed.

Lemma uadd_assoc a b c : uadd (uadd a b) c = uadd a (uadd b c).
Proof.
  unfold uadd, wrap.
  rewrite Zplus_mod_idemp_l, Zplus_mod_idemp_r. f_equal. lia.
Qed.

Lemma wrap_once z :
  UINT_MODULUS <= z < 2 * UINT_MODULUS -> wrap z = z - UINT_MODULUS.
Proof.
  intros Hz. unfold wrap.
  replace z with (z - UINT_MODULUS + 1 * UINT_MODULUS) at 1 by lia.
  rewrite Z_mod_plus_full. apply Z.mod_small. lia.
Qed.

(** Two callees one after the other, the second at an offset inside the
    part of the buffer the first was given. *)
Lemma at_offset_nested (a b : Z) first second grad :
  0 <= a -> 0 <= b ->
  (forall g, length (first g) = length g) ->
  at_offset (a + b) second (at_offset a first grad)
  = at_offset a (fun g => at_offset b second (first g)) grad.
Proof.
  intros Ha Hb Hlen. unfold at_offset.
  rewrite Z2Nat.inj_add by lia.
  destruct (decide (Z.to_nat a <= length grad)%nat) as [Hin|Hout].
  - rewrite take_app_add', drop_app_add' by (rewrite length_take; lia).
    rewrite <- app_assoc. reflexivity.
  - rewrite (take_ge grad), (drop_ge grad) by lia.
    rewrite (nil_length_inv (first [])) by (rewrite Hlen; reflexivity).
    rewrite app_nil_r, take_ge, drop_ge by lia.
    rewrite take_nil, drop_nil. reflexivity.
Qed.

(** ** Nesting of operators *)

Section Nesting.

Context {M : Type} {metric : Metric M}.

Implicit Types (A B C k : Kernel M) (i : Z) (v : float).

(** X5.  The parameter vector does not depend on how the operators are
    nested, nor on which operators they are: over the same three children
    in the same order, [(A . B) . C] and [A . (B . C)] have the same
    size, read the same parameter at every index and write to the same
    child at the same offset, as long as [sA + sB] fits in an
    [unsigned]. *)
Theorem Operator_parameters_reassociate o1 o2 o3 o4 A B C i v :
  size A + size B < UINT_MODULUS ->
  0 <= i < UINT_MODULUS ->
  size (Operator o1 (Operator o2 A B) C)
  = size (Operator o3 A (Operator o4 B C)) /\
  get_parameter (Operator o1 (Operator o2 A B) C) i
  = get_parameter (Operator o3 A (Operator o4 B C)) i /\
  exists A' B' C',
    set_parameter (Operator o1 (Operator o2 A B) C) i v
    = Operator o1 (Operator o2 A' B') C' /\
    set_parameter (Operator o3 A (Operator o4 B C)) i v
    = Operator o3 A' (Operator o4 B' C').
Proof.
  intros Hfit Hi.
  pose proof (size_nonneg A). pose proof (size_nonneg B).
  split; [|split].
  - rewrite !size_Operator. apply uadd_assoc.
  - rewrite !get_parameter_Operator, (size_Operator_fits o2) by exact Hfit.
    destruct (Z.ltb_spec i (size A)) as [HA|HA].
    + destruct (Z.ltb_spec i (size A + size B)); [reflexivity | lia].
    + rewrite (usub_exact i (size A)) by lia.
      destruct (Z.ltb_spec i (size A + size B)),
               (Z.ltb_spec (i - size A) (size B)); try lia.
      * reflexivity.
      * rewrite !usub_exact by lia. f_equal. lia.
  - rewrite !set_parameter_Operator, (size_Operator_fits o2) by exact Hfit.
    destruct (Z.ltb_spec i (size A)) as [HA|HA].
    + destruct (Z.ltb_spec i (size A + size B)); [|lia].
      exists (set_parameter A i v), B, C. split; reflexivity.
    + rewrite (usub_exact i (size A)) by lia.
      destruct (Z.ltb_spec i (size A + size B)),
               (Z.ltb_spec (i - size A) (size B)); try lia.
      * exists A, (set_parameter B (i - size A) v), C. split; reflexivity.
      * rewrite !usub_exact by lia.
        replace (i - size A - size B) with (i - (size A + size B)) by lia.
        exists A, B, (set_parameter C (i - (size A + size B)) v).
        split; reflexivity.
Qed.

Section NestedGradients.

Hypothesis metric_keeps : metric_gradient_keeps_length M.

(** X6.  [Sum.gradient] does not depend on how the sums are nested:
    [(A + B) + C] and [A + (B + C)] leave the same buffer, as long as
    [sA + sB] fits in an [unsigned]. *)
Theorem Sum_gradient_reassociate A B C (x1 x2 : list float) grad :
  size A + size B < UINT_MODULUS ->
  gradient (Sum (Sum A B) C) x1 x2 grad
  = gradient (Sum A (Sum B C)) x1 x2 grad.
Proof.
  intros Hfit. cbn [gradient].
  change (size (Sum A B)) with (size (Operator OpSum A B)).
  rewrite size_Operator_fits by exact Hfit.
  apply at_offset_nested; try apply size_nonneg.
  intros g. apply gradient_length. exact metric_keeps.
Qed.

(** X7.  When the [unsigned] sum of the children's sizes wraps, [size()]
    of the product is below the left child's size and the second scaling
    loop of [Product.gradient] does not run: the left half is scaled by
    the value of [B] as ever, and from [sA] on the buffer holds what
    [Sum.gradient] leaves there, the gradient of [B] as [B] wrote it. *)
Theorem Product_gradient_wrapped_size A B (x1 x2 : list float) grad :
  size A < UINT_MODULUS -> size B < UINT_MODULUS ->
  UINT_MODULUS <= size A + size B ->
  size (Product A B) < size A /\
  (forall i, 0 <= i < size A ->
     entry (gradient (Product A B) x1 x2 grad) i
     = (fun g => (g * value B x1 x2)%float)
         <$> entry (gradient A x1 x2 grad) i) /\
  (forall i, size A <= i ->
     entry (gradient (Product A B) x1 x2 grad) i
     = entry (gradient (Sum A B) x1 x2 grad) i).
Proof.
  intros HA HB Hwrap. pose proof (size_nonneg A).
  assert (size (Product A B) < size A) as Hsmall.
  { cbn [size]. unfold uadd. rewrite wrap_once; lia. }
  split; [exact Hsmall|]. unfold entry. split; intros i Hi.
  - apply Product_gradient_left; [exact metric_keeps | lia].
  - cbn [gradient].
    rewrite for_range_update_lookup by lia.
    destruct (decide (size A <= Z.of_nat (Z.to_nat i) < size (Product A B)));
      [lia|].
    rewrite option_fmap_id, for_range_update_lookup by lia.
    destruct (decide (0 <= Z.of_nat (Z.to_nat i) < size A)); [lia|].
    apply option_fmap_id.
Qed.

Section Frame.

Hypothesis metric_frame : metric_gradient_frame M.

Lemma gradient_frame k (x1 x2 : list float) :
  fits k ->
  forall grad (j : nat),
    size k <= Z.of_nat j -> gradient k x1 x2 grad !! j = grad !! j.
Proof.
  assert (Hsum : forall A B,
            (forall grad (j : nat), size A <= Z.of_nat j ->
               gradient A x1 x2 grad !! j = grad !! j) ->
            (forall grad (j : nat), size B <= Z.of_nat j ->
               gradient B x1 x2 grad !! j = grad !! j) ->
            forall grad (j : nat), size A + size B <= Z.of_nat j ->
              gradient (Sum A B) x1 x2 grad !! j = grad !! j).
  { intros A B HA HB grad j Hj.
    pose proof (size_nonneg A). pose proof (size_nonneg B).
    rewrite Sum_gradient_right by (exact metric_keeps || lia).
    rewrite HB by lia. rewrite lookup_drop.
    replace (Z.to_nat (size A) + (j - Z.to_nat (size A)))%nat with j by lia.
    apply HA. lia. }
  induction k as [|A IHA B IHB|A IHA B IHB|spec m params|spec s params];
    intros Hfits grad j Hj.
  - reflexivity.
  - destruct (fits_Operator OpSum A B Hfits) as (HA & HB & Hsize).
    cbn [Operator] in Hsize. rewrite Hsize in Hj.
    apply Hsum; auto.
  - destruct (fits_Operator OpProduct A B Hfits) as (HA & HB & Hsize).
    cbn [Operator] in Hsize.
    pose proof (size_nonneg A). pose proof (size_nonneg B).
    cbn [gradient].
    rewrite for_range_update_lookup by lia.
    destruct (decide (size A <= Z.of_nat j < size (Product A B))); [lia|].
    rewrite option_fmap_id, for_range_update_lookup by lia.
    destruct (decide (0 <= Z.of_nat j < size A)); [lia|].
    rewrite option_fmap_id.
    change (gradient (Sum A B) x1 x2 grad !! j = grad !! j).
    apply Hsum; auto. lia.
  - destruct (fits_Stationary spec m params Hfits) as (Hm & Hsize).
    assert (0 <= size_ params) by (unfold size_; lia).
    cbn [gradient].
    rewrite for_range_update_lookup by lia.
    destruct (decide (size_ params <= Z.of_nat j
                      < size (Stationary spec m params))); [lia|].
    rewrite option_fmap_id.
    rewrite at_offset_lookup_ge by (lia || intros g; apply metric_keeps).
    rewrite metric_frame by lia. rewrite lookup_drop.
    replace (Z.to_nat (size_ params) + (j - Z.to_nat (size_ params)))%nat
      with j by lia.
    rewrite (pointwise_for_params params _
               (fun idx _ => st_param_gradient spec idx params
                               (metric_value m x1 x2)))
      by (intros idx; apply pointwise_store).
    destruct (decide (Z.of_nat j < size_ params)); [lia|].
    apply option_fmap_id.
  - cbn [size] in Hj. rewrite Additive_gradient_pointwise.
    destruct (decide (Z.of_nat j < size_ params)); [lia|].
    apply option_fmap_id.
Qed.

(** X8.  [gradient] writes nothing past its [size()] entries: in a tree
    whose sizes do not wrap, every entry of the buffer from index
    [size()] on is what it was before the call. *)
Theorem gradient_leaves_rest k (x1 x2 : list float) grad i :
  fits k -> size k <= i ->
  entry (gradient k x1 x2 grad) i = entry grad i.
Proof.
  intros Hfits Hi. pose proof (size_nonneg k).
  apply gradient_frame; [exact Hfits | lia].
Qed.

Section Overwrite.

Hypothesis metric_writes : metric_gradient_writes_all M.

(** X9.  [gradient] overwrites: whatever the buffer holds before the
    call, after it the first [size()] entries are the gradient of the
    kernel (what it writes into a buffer of zeros) and the rest of the
    buffer is unchanged.  In particular no entry is accumulated into, and
    the caller need not clear the buffer. *)
Theorem gradient_overwrites k (x1 x2 : list float) grad :
  fits k ->
  size k <= Z.of_nat (length grad) ->
  gradient k x1 x2 grad
  = own_gradient k x1 x2 ++ drop (Z.to_nat (size k)) grad.
Proof.
  intros Hfits Hlen. pose proof (size_nonneg k).
  pose proof (own_gradient_length metric_keeps k x1 x2) as Hown.
  apply list_eq. intros j.
  destruct (decide (Z.of_nat j < size k)) as [Hin|Hout].
  - rewrite lookup_app_l by lia.
    apply (gradient_own metric_keeps metric_writes); assumption.
  - rewrite lookup_app_r by lia. rewrite lookup_drop.
    replace (Z.to_nat (size k) + (j - length (own_gradient k x1 x2)))%nat
      with j by lia.
    apply gradient_frame; [exact Hfits | lia].
Qed.

End Overwrite.

End Frame.

End NestedGradients.

(** X10.  The gradient of an additive kernel, in full: entry [idx] below
    the number of hyperparameters is the partial in the hyperparameter
    declared at [idx], summed over the selected axes in the order of the
    subspace, starting from [0.0]; the rest of the buffer is unchanged. *)
Theorem Additive_gradient_sums_axes spec subspace params
    (x1 x2 : list float) grad :
  Z.of_nat (length params) <= Z.of_nat (length grad) ->
  gradient (Additive spec subspace params : Kernel M) x1 x2 grad
  = (additive_partial spec subspace params x1 x2
       <$> seqZ 0 (Z.of_nat (length params)))
    ++ drop (length params) grad.
Proof.
  intros Hlen. apply list_eq. intros j.
  rewrite Additive_gradient_pointwise. unfold size_.
  destruct (decide (Z.of_nat j < Z.of_nat (length params))) as [Hin|Hout].
  - rewrite lookup_app_l by (rewrite length_fmap, length_seqZ; lia).
    rewrite list_lookup_fmap, lookup_seqZ_lt by lia.
    destruct (lookup_lt_is_Some_2 grad j) as [g ->]; [lia|].
    reflexivity.
  - rewrite lookup_app_r by (rewrite length_fmap, length_seqZ; lia).
    rewrite length_fmap, length_seqZ, lookup_drop, option_fmap_id.
    f_equal. lia.
Qed.

(** X11.  An additive kernel accumulates axis by axis, in the order of
    the subspace: over a subspace that selects one more axis [j] after
    the same axes, the value is the value over the shorter subspace plus
    the contribution of [j], and so is every entry of the gradient. *)
Theorem Additive_next_axis spec shorter longer params (x1 x2 : list float)
    grad :
  0 <= get_naxes shorter ->
  get_naxes longer = get_naxes shorter + 1 ->
  (forall i, 0 <= i < get_naxes shorter ->
     get_axis longer i = get_axis shorter i) ->
  value (Additive spec longer params : Kernel M) x1 x2
  = (value (Additive spec shorter params : Kernel M) x1 x2
     + ad_get_value spec params
         (load x1 (get_axis longer (get_naxes shorter)))
         (load x2 (get_axis longer (get_naxes shorter))))%float /\
  (forall idx, 0 <= idx < Z.of_nat (length params) ->
     entry (gradient (Additive spec longer params : Kernel M) x1 x2 grad) idx
     = (fun g =>
          (g + ad_param_gradient spec idx params
                 (load x1 (get_axis longer (get_naxes shorter)))
                 (load x2 (get_axis longer (get_naxes shorter))))%float)
         <$> entry (gradient (Additive spec shorter params : Kernel M)
                      x1 x2 grad) idx).
Proof.
  intros Hn Hlonger Hsame. split.
  - cbn [value]. rewrite Hlonger, for_range_last by exact Hn. f_equal.
    apply for_range_ext. intros i acc Hi. cbv zeta. rewrite Hsame by exact Hi.
    reflexivity.
  - intros idx Hidx. unfold entry. rewrite !Additive_gradient_pointwise.
    rewrite Z2Nat.id by lia. unfold size_.
    destruct (decide (idx < Z.of_nat (length params))); [|lia].
    destruct (grad !! Z.to_nat idx) as [g|]; [|reflexivity].
    simpl. f_equal. unfold additive_partial.
    rewrite Hlonger, for_range_last by exact Hn. f_equal.
    apply for_range_ext. intros i acc Hi. cbv zeta. rewrite Hsame by exact Hi.
    reflexivity.
Qed.

End Nesting.

(** ** What [set_parameter] keeps *)

Section KeepsFitting.

Context {M : Type} {metric : Metric M}.

Hypothesis metric_unsigned : metric_size_unsigned M.
Hypothesis metric_fixed : metric_shape_fixed M.

Lemma set_parameter_fits (k : Kernel M) i v :
  0 <= i < size k -> fits (set_parameter k i v) = fits k.
Proof.
  assert (Hop : forall o (A B : Kernel M) i,
            (forall i, 0 <= i < size A -> fits (set_parameter A i v) = fits A) ->
            (forall i, 0 <= i < size B -> fits (set_parameter B i v) = fits B) ->
            0 <= i < size (Operator o A B) ->
            fits (set_parameter (Operator o A B) i v) = fits (Operator o A B)).
  { intros o A B j HA HB Hj.
    assert (Hfits : forall A' B' : Kernel M,
              fits (Operator o A' B')
              = fits A' && fits B' && (size A' + size B' <? UINT_MODULUS))
      by (intros; destruct o; reflexivity).
    rewrite set_parameter_Operator, (Hfits A B).
    destruct (Operator_index_cases o A B j Hj)
      as [(Hin & ->)|(Hin & -> & ->)]; rewrite Hfits.
    - rewrite HA by exact Hin.
      destruct (set_parameter_shape metric_unsigned metric_fixed A j v Hin)
        as [-> _].
      reflexivity.
    - rewrite HB by exact Hin.
      destruct (set_parameter_shape metric_unsigned metric_fixed
                  B (j - size A) v Hin) as [-> _].
      reflexivity. }
  revert i.
  induction k as [|A IHA B IHB|A IHA B IHB|spec m params|spec s params];
    intros i Hi.
  - reflexivity.
  - apply (Hop OpSum); assumption.
  - apply (Hop OpProduct); assumption.
  - cbn [set_parameter].
    destruct (Stationary_index_cases metric_unsigned spec m params i Hi)
      as [Hown|(Hge & Hin & Hsub)].
    + rewrite param_set_0 by exact Hown. cbn [fits].
      rewrite size_store. reflexivity.
    + rewrite param_set_outside by lia. cbn [fits]. rewrite Hsub.
      destruct (metric_fixed m (i - size_ params) v Hin) as [-> _].
      reflexivity.
  - cbn [set_parameter].
    destruct (param_set params 0 i v); reflexivity.
Qed.

Lemma set_parameter_subtree_sizes (k : Kernel M) i v :
  0 <= i < size k -> subtree_sizes (set_parameter k i v) = subtree_sizes k.
Proof.
  assert (Hop : forall o (A B : Kernel M) i,
            (forall i, 0 <= i < size A ->
               subtree_sizes (set_parameter A i v) = subtree_sizes A) ->
            (forall i, 0 <= i < size B ->
               subtree_sizes (set_parameter B i v) = subtree_sizes B) ->
            0 <= i < size (Operator o A B) ->
            subtree_sizes (set_parameter (Operator o A B) i v)
            = subtree_sizes (Operator o A B)).
  { intros o A B j HA HB Hj.
    assert (Hsizes : forall A' B' : Kernel M,
              subtree_sizes (Operator o A' B')
              = uadd (size A') (size B')
                :: subtree_sizes A' ++ subtree_sizes B')
      by (intros; destruct o; reflexivity).
    rewrite set_parameter_Operator, (Hsizes A B).
    destruct (Operator_index_cases o A B j Hj)
      as [(Hin & ->)|(Hin & -> & ->)]; rewrite Hsizes.
    - rewrite HA by exact Hin.
      destruct (set_parameter_shape metric_unsigned metric_fixed A j v Hin)
        as [-> _].
      reflexivity.
    - rewrite HB by exact Hin.
      destruct (set_parameter_shape metric_unsigned metric_fixed
                  B (j - size A) v Hin) as [-> _].
      reflexivity. }
  revert i.
  induction k as [|A IHA B IHB|A IHA B IHB|spec m params|spec s params];
    intros i Hi.
  - reflexivity.
  - apply (Hop OpSum); assumption.
  - apply (Hop OpProduct); assumption.
  - destruct (set_parameter_shape metric_unsigned metric_fixed _ i v Hi)
      as [Hsize _].
    cbn [set_parameter] in *.
    destruct (param_set params 0 i v); cbn [subtree_sizes]; f_equal;
      exact Hsize.
  - destruct (set_parameter_shape metric_unsigned metric_fixed _ i v Hi)
      as [Hsize _].
    cbn [set_parameter] in *.
    destruct (param_set params 0 i v); cbn [subtree_sizes]; f_equal;
      exact Hsize.
Qed.

(** X12.  [set_parameter], at an index of the parameter vector, keeps
    the size of every subtree, so a tree whose sizes do not wrap stays
    one and a tree with a wrapped size stays one too. *)
Theorem set_parameter_keeps_fitting (k : Kernel M) i v :
  0 <= i < size k ->
  subtree_sizes (set_parameter k i v) = subtree_sizes k /\
  fits (set_parameter k i v) = fits k.
Proof.
  intros Hi. split.
  - apply set_parameter_subtree_sizes. exact Hi.
  - apply set_parameter_fits. exact Hi.
Qed.

End KeepsFitting.

(** ** The example objects, continued *)

Lemma ScaledEuclidean_round_trip : metric_round_trip ScaledEuclidean.
Proof.
  intros m i v Hi. simpl in *. assert (i = 0) as -> by lia. reflexivity.
Qed.

Lemma ScaledEuclidean_set_independent : metric_set_independent ScaledEuclidean.
Proof. intros m i j v Hi Hj Hne. simpl in *. lia. Qed.

Lemma ScaledEuclidean_gradient_frame : metric_gradient_frame ScaledEuclidean.
Proof.
  intros m x1 x2 grad j Hj. simpl in *. unfold store.
  apply list_lookup_insert_ne. lia.
Qed.

Lemma ConstantMetric_keeps_length : metric_gradient_keeps_length ConstantMetric.
Proof.
  intros m x1 x2 grad. simpl.
  apply (for_range_pointwise_length 0 (cm_size m) _
           (fun i j => if decide (j = Z.to_nat i)
                       then fun _ => 0%float else id)).
  intros i. apply pointwise_store.
Qed.

Example tree_example :
  size kTree = 6 /\
  map (get_parameter kTree) [0; 1; 2; 3; 4; 5]
  = [2%float; 1%float; 3%float; 0.5%float; 2%float; 1%float] /\
  map (get_parameter (set_parameter kTree 4 7%float)) [0; 1; 2; 3; 4; 5]
  = [2%float; 1%float; 3%float; 0.5%float; 7%float; 1%float] /\
  gradient kTree p1 p2 [9%float; 9%float; 9%float; 9%float; 9%float; 9%float;
                        9%float]
  = [461.5%float; 923%float; 78%float; 26%float; 338%float; 676%float;
     9%float].
Proof. repeat split; vm_compute; reflexivity. Qed.

(** ** The further theorems at the example objects *)

Lemma Stationary_parameter_routing_witness :
  get_parameter kA 1
  = (if 1 <? Z.of_nat (length [2%float]) then load [2%float] 1
     else metric_get_parameter unit_metric (1 - Z.of_nat (length [2%float]))) /\
  set_parameter kA 1 7%float
  = (if 1 <? Z.of_nat (length [2%float])
     then Stationary linear_in_r2 unit_metric (store 1 7%float [2%float])
     else Stationary linear_in_r2
            (metric_set_parameter unit_metric
               (1 - Z.of_nat (length [2%float])) 7%float)
            [2%float]).
Proof.
  apply (Stationary_parameter_routing linear_in_r2 unit_metric [2%float]
           1 7%float).
  unfold UINT_MODULUS. lia.
Defined.

Lemma Additive_parameter_access_witness :
  get_parameter kB 1 = load [3%float; 0.5%float] 1 /\
  set_parameter kB 1 7%float
  = Additive affine_product first_axis (store 1 7%float [3%float; 0.5%float]).
Proof.
  apply (Additive_parameter_access affine_product first_axis
           [3%float; 0.5%float] 1 7%float).
  lia.
Defined.

Lemma get_set_parameter_witness :
  get_parameter (set_parameter kTree 4 7%float) 4 = 7%float.
Proof.
  apply (get_set_parameter
           ScaledEuclidean_size_unsigned ScaledEuclidean_shape_fixed
           ScaledEuclidean_round_trip kTree 4 7%float).
  vm_compute. split; [discriminate | reflexivity].
Defined.

Lemma get_set_parameter_other_witness :
  get_parameter (set_parameter kTree 4 7%float) 1 = get_parameter kTree 1.
Proof.
  apply (get_set_parameter_other
           ScaledEuclidean_size_unsigned ScaledEuclidean_shape_fixed
           ScaledEuclidean_set_independent kTree 4 1 7%float).
  - vm_compute. split; [discriminate | reflexivity].
  - vm_compute. split; [discriminate | reflexivity].
  - discriminate.
Defined.

Lemma Operator_parameters_reassociate_witness :
  size (Operator OpSum (Operator OpProduct kA kB) kA)
  = size (Operator OpProduct kA (Operator OpSum kB kA)) /\
  get_parameter (Operator OpSum (Operator OpProduct kA kB) kA) 4
  = get_parameter (Operator OpProduct kA (Operator OpSum kB kA)) 4 /\
  exists A' B' C',
    set_parameter (Operator OpSum (Operator OpProduct kA kB) kA) 4 7%float
    = Operator OpSum (Operator OpProduct A' B') C' /\
    set_parameter (Operator OpProduct kA (Operator OpSum kB kA)) 4 7%float
    = Operator OpProduct A' (Operator OpSum B' C').
Proof.
  apply (Operator_parameters_reassociate OpSum OpProduct OpProduct OpSum
           kA kB kA 4 7%float).
  - vm_compute. reflexivity.
  - unfold UINT_MODULUS. lia.
Defined.

Lemma Sum_gradient_reassociate_witness :
  gradient (Sum (Sum kA kB) kA) p1 p2 (zeros 7)
  = gradient (Sum kA (Sum kB kA)) p1 p2 (zeros 7).
Proof.
  apply (Sum_gradient_reassociate ScaledEuclidean_keeps_length
           kA kB kA p1 p2 (zeros 7)).
  vm_compute. reflexivity.
Defined.

Lemma gradient_leaves_rest_witness :
  entry (gradient kTree p1 p2 (replicate 8 9%float)) 6
  = entry (replicate 8 9%float) 6.
Proof.
  apply (gradient_leaves_rest
           ScaledEuclidean_keeps_length ScaledEuclidean_gradient_frame
           kTree p1 p2 (replicate 8 9%float) 6).
  - vm_compute. exact I.
  - vm_compute. discriminate.
Defined.

Lemma gradient_overwrites_witness :
  gradient kTree p1 p2 (replicate 8 9%float)
  = own_gradient kTree p1 p2
    ++ drop (Z.to_nat (size kTree)) (replicate 8 9%float).
Proof.
  apply (gradient_overwrites
           ScaledEuclidean_keeps_length ScaledEuclidean_gradient_frame
           ScaledEuclidean_writes_all kTree p1 p2 (replicate 8 9%float)).
  - vm_compute. exact I.
  - vm_compute. discriminate.
Defined.

Lemma Additive_gradient_sums_axes_witness :
  gradient kB p1 p2 (replicate 3 9%float)
  = (additive_partial affine_product first_axis [3%float; 0.5%float] p1 p2
       <$> seqZ 0 (Z.of_nat (length [3%float; 0.5%float])))
    ++ drop (length [3%float; 0.5%float]) (replicate 3 9%float).
Proof.
  apply (Additive_gradient_sums_axes affine_product first_axis
           [3%float; 0.5%float] p1 p2 (replicate 3 9%float)).
  simpl. lia.
Defined.

Lemma Additive_next_axis_witness :
  value (Additive affine_product second_axis_too [3%float; 0.5%float]
           : Kernel ScaledEuclidean) p1 p2
  = (value kB p1 p2
     + ad_get_value affine_product [3%float; 0.5%float]
         (load p1 (get_axis second_axis_too (get_naxes first_axis)))
         (load p2 (get_axis second_axis_too (get_naxes first_axis))))%float /\
  (forall idx, 0 <= idx < Z.of_nat (length [3%float; 0.5%float]) ->
     entry (gradient (Additive affine_product second_axis_too
                        [3%float; 0.5%float] : Kernel ScaledEuclidean)
              p1 p2 (zeros 2)) idx
     = (fun g =>
          (g + ad_param_gradient affine_product idx [3%float; 0.5%float]
                 (load p1 (get_axis second_axis_too (get_naxes first_axis)))
                 (load p2 (get_axis second_axis_too (get_naxes first_axis))))%float)
         <$> entry (gradient kB p1 p2 (zeros 2)) idx).
Proof.
  apply (Additive_next_axis affine_product first_axis second_axis_too
           [3%float; 0.5%float] p1 p2 (zeros 2)).
  - simpl. lia.
  - reflexivity.
  - intros i _. reflexivity.
Defined.

Lemma set_parameter_keeps_fitting_witness :
  subtree_sizes (set_parameter kTree 4 7%float) = subtree_sizes kTree /\
  fits (set_parameter kTree 4 7%float) = fits kTree.
Proof.
  apply (set_parameter_keeps_fitting
           ScaledEuclidean_size_unsigned ScaledEuclidean_shape_fixed
           kTree 4 7%float).
  vm_compute. split; [discriminate | reflexivity].
Defined.

(** ** Gradients in trees of any size *)

Section Reach.

Context {M : Type} {metric : Metric M}.

Implicit Types (A B k : Kernel M) (grad : list float) (i : Z) (j : nat).

(** [Product.gradient] is [Sum.gradient] followed by the two scaling
    loops. *)
Lemma Product_gradient_lookup A B (x1 x2 : list float) grad j :
  gradient (Product A B) x1 x2 grad !! j
  = (if decide (Z.of_nat j < size A)
     then fun g => (g * value B x1 x2)%float
     else if decide (Z.of_nat j < size (Product A B))
          then fun g => (g * value A x1 x2)%float
          else id)
      <$> gradient (Sum A B) x1 x2 grad !! j.
Proof.
  pose proof (size_nonneg A). cbn [gradient size].
  rewrite !for_range_update_lookup by lia.
  generalize (at_offset (size A) (gradient B x1 x2) (gradient A x1 x2 grad)
                !! j).
  intros [g|]; [|reflexivity]. simpl.
  destruct (decide (0 <= Z.of_nat j < size A)),
           (decide (size A <= Z.of_nat j < uadd (size A) (size B))),
           (decide (Z.of_nat j < size A)); try lia; try reflexivity;
    destruct (decide (Z.of_nat j < uadd (size A) (size B)));
    try lia; reflexivity.
Qed.

Section Laws.

Hypothesis metric_keeps : metric_gradient_keeps_length M.
Hypothesis metric_unsigned : metric_size_unsigned M.

Lemma Stationary_gradient_lookup_ge spec (m : M) params (x1 x2 : list float)
    grad j :
  size_ params <= Z.of_nat j ->
  gradient (Stationary spec m params) x1 x2 grad !! j
  = (if decide (Z.of_nat j < size (Stationary spec m params))
     then fun g =>
            (g * st_radial_gradient spec params (metric_value m x1 x2))%float
     else id)
      <$> metric_gradient m x1 x2
            (drop (Z.to_nat (size_ params))
               (for_params params
                  (fun idx =>
                     store idx
                       (st_param_gradient spec idx params
                          (metric_value m x1 x2)))
                  grad))
            !! (j - Z.to_nat (size_ params))%nat.
Proof.
  intros Hj. assert (0 <= size_ params) by (unfold size_; lia).
  cbn [gradient].
  rewrite for_range_update_lookup by lia.
  rewrite at_offset_lookup_ge by (lia || intros g; apply metric_keeps).
  destruct (decide (size_ params <= Z.of_nat j
                    < size (Stationary spec m params))),
           (decide (Z.of_nat j < size (Stationary spec m params)));
    try lia; reflexivity.
Qed.

Lemma reach_nonneg k : 0 <= reach k.
Proof.
  induction k as [|A IHA B IHB|A IHA B IHB|spec m params|spec s params];
    cbn [reach]; unfold size_; try lia.
  pose proof (metric_unsigned m). lia.
Qed.

Lemma size_le_reach k : size k <= reach k.
Proof.
  assert (Hop : forall A B, size B <= reach B ->
            uadd (size A) (size B) <= Z.max (reach A) (size A + reach B)).
  { intros A B HB. pose proof (size_nonneg A). pose proof (size_nonneg B).
    pose proof (wrap_le (size A + size B)). unfold uadd. lia. }
  induction k as [|A IHA B IHB|A IHA B IHB|spec m params|spec s params];
    cbn [reach size]; auto; try lia.
  pose proof (metric_unsigned m). unfold uadd, size_.
  pose proof (wrap_le (metric_size m + Z.of_nat (length params))). lia.
Qed.

Section ReachFrame.

Hypothesis metric_frame : metric_gradient_frame M.

Lemma Sum_gradient_frame_reach A B (x1 x2 : list float) :
  (forall grad j, reach A <= Z.of_nat j ->
     gradient A x1 x2 grad !! j = grad !! j) ->
  (forall grad j, reach B <= Z.of_nat j ->
     gradient B x1 x2 grad !! j = grad !! j) ->
  forall grad j, reach (Sum A B) <= Z.of_nat j ->
    gradient (Sum A B) x1 x2 grad !! j = grad !! j.
Proof.
  intros HA HB grad j Hj. cbn [reach] in Hj.
  pose proof (size_nonneg A). pose proof (reach_nonneg B).
  rewrite Sum_gradient_right by (exact metric_keeps || lia).
  rewrite HB by lia. rewrite lookup_drop.
  replace (Z.to_nat (size A) + (j - Z.to_nat (size A)))%nat with j by lia.
  apply HA. lia.
Qed.

Lemma gradient_frame_reach k (x1 x2 : list float) grad j :
  reach k <= Z.of_nat j -> gradient k x1 x2 grad !! j = grad !! j.
Proof.
  revert grad j.
  induction k as [|A IHA B IHB|A IHA B IHB|spec m params|spec s params];
    intros grad j Hj.
  - reflexivity.
  - apply Sum_gradient_frame_reach; assumption.
  - rewrite Product_gradient_lookup.
    rewrite Sum_gradient_frame_reach by assumption.
    pose proof (size_le_reach (Product A B)). pose proof (size_le_reach A).
    cbn [reach] in *.
    destruct (decide (Z.of_nat j < size A)); [lia|].
    destruct (decide (Z.of_nat j < size (Product A B))); [lia|].
    apply option_fmap_id.
  - pose proof (size_le_reach (Stationary spec m params)).
    pose proof (metric_unsigned m). cbn [reach] in *.
    rewrite Stationary_gradient_lookup_ge by lia.
    destruct (decide (Z.of_nat j < size (Stationary spec m params))); [lia|].
    rewrite option_fmap_id, metric_frame by (unfold size_ in *; lia).
    rewrite lookup_drop.
    replace (Z.to_nat (size_ params) + (j - Z.to_nat (size_ params)))%nat
      with j by (unfold size_ in *; lia).
    rewrite (pointwise_for_params params _
               (fun idx _ => st_param_gradient spec idx params
                               (metric_value m x1 x2)))
      by (intros idx; apply pointwise_store).
    destruct (decide (Z.of_nat j < size_ params)); [lia|].
    apply option_fmap_id.
  - cbn [reach] in Hj. rewrite Additive_gradient_pointwise.
    destruct (decide (Z.of_nat j < size_ params)); [lia|].
    apply option_fmap_id.
Qed.

Section ReachOverwrite.

Hypothesis metric_writes : metric_gradient_writes_all M.

Lemma Sum_gradient_any_buffer_reach A B (x1 x2 : list float) :
  (forall grad grad' j, Z.of_nat j < reach A ->
     reach A <= Z.of_nat (length grad) ->
     reach A <= Z.of_nat (length grad') ->
     gradient A x1 x2 grad !! j = gradient A x1 x2 grad' !! j) ->
  (forall grad grad' j, Z.of_nat j < reach B ->
     reach B <= Z.of_nat (length grad) ->
     reach B <= Z.of_nat (length grad') ->
     gradient B x1 x2 grad !! j = gradient B x1 x2 grad' !! j) ->
  forall grad grad' j, Z.of_nat j < reach (Sum A B) ->
    reach (Sum A B) <= Z.of_nat (length grad) ->
    reach (Sum A B) <= Z.of_nat (length grad') ->
    gradient (Sum A B) x1 x2 grad !! j = gradient (Sum A B) x1 x2 grad' !! j.
Proof.
  intros HA HB grad grad' j Hj Hlen Hlen'. cbn [reach] in *.
  pose proof (size_nonneg A). pose proof (size_le_reach A).
  pose proof (reach_nonneg B).
  destruct (decide (Z.of_nat j < size A)) as [Hl|Hr].
  - rewrite !Sum_gradient_left by assumption. apply HA; lia.
  - rewrite !Sum_gradient_right by (exact metric_keeps || lia).
    destruct (decide (Z.of_nat j - size A < reach B)) as [Hin|Hout].
    + apply HB; [lia | |];
        rewrite length_drop, gradient_length by exact metric_keeps; lia.
    + rewrite !gradient_frame_reach by lia. rewrite !lookup_drop.
      replace (Z.to_nat (size A) + (j - Z.to_nat (size A)))%nat with j by lia.
      apply HA; lia.
Qed.

(** What [gradient] leaves below [reach k] does not depend on what the
    buffer held, in a tree of any size. *)
Lemma gradient_any_buffer_reach k (x1 x2 : list float) grad grad' j :
  Z.of_nat j < reach k ->
  reach k <= Z.of_nat (length grad) ->
  reach k <= Z.of_nat (length grad') ->
  gradient k x1 x2 grad !! j = gradient k x1 x2 grad' !! j.
Proof.
  revert grad grad' j.
  induction k as [|A IHA B IHB|A IHA B IHB|spec m params|spec s params];
    intros grad grad' j Hj Hlen Hlen'.
  - cbn [reach] in Hj. lia.
  - apply Sum_gradient_any_buffer_reach; assumption.
  - rewrite !Product_gradient_lookup. f_equal.
    apply Sum_gradient_any_buffer_reach; assumption.
  - cbn [reach] in *. pose proof (metric_unsigned m).
    assert (0 <= size_ params) by (unfold size_; lia).
    destruct (decide (Z.of_nat j < size_ params)) as [Hl|Hr].
    + rewrite !Stationary_gradient_own_block by assumption.
      apply lookup_const_fmap; lia.
    + rewrite !Stationary_gradient_lookup_ge by lia. f_equal.
      apply metric_writes; [lia | |];
        rewrite length_drop, for_params_store_length; lia.
  - cbn [reach] in *. rewrite !Additive_gradient_pointwise.
    destruct (decide (Z.of_nat j < size_ params)); [|lia].
    apply lookup_const_fmap; lia.
Qed.

(** An entry below [reach k] exists after the call and is the same in
    any two buffers that are long enough. *)
Lemma gradient_entry_reach k (x1 x2 : list float) grad grad' j :
  Z.of_nat j < reach k ->
  reach k <= Z.of_nat (length grad) ->
  reach k <= Z.of_nat (length grad') ->
  exists g, gradient k x1 x2 grad' !! j = Some g /\
            gradient k x1 x2 grad !! j = Some g.
Proof.
  intros Hj Hlen Hlen'.
  destruct (lookup_lt_is_Some_2 (gradient k x1 x2 grad') j) as [g Hg].
  { rewrite gradient_length by exact metric_keeps. lia. }
  exists g. split; [exact Hg|].
  rewrite <- Hg. apply gradient_any_buffer_reach; assumption.
Qed.

(** C4.  [Sum.gradient] fills [out[0..sA)] with the gradient of [A] and
    [out[sA..sA+sB)] with the gradient of [B]: entry [i < sA] exists and
    is entry [i] of what [A.gradient] leaves in any buffer of its own,
    and entry [i] with [sA <= i < sA + sB] exists and is entry [i - sA]
    of what [B.gradient] leaves in any buffer of its own; so neither half
    depends on the other child, nor on what the buffers held. *)
Theorem Sum_gradient_halves A B (x1 x2 : list float) grad gradA gradB :
  reach (Sum A B) <= Z.of_nat (length grad) ->
  reach A <= Z.of_nat (length gradA) ->
  reach B <= Z.of_nat (length gradB) ->
  (forall i, 0 <= i < size A ->
     exists g, entry (gradient A x1 x2 gradA) i = Some g /\
               entry (gradient (Sum A B) x1 x2 grad) i = Some g) /\
  (forall i, size A <= i < size A + size B ->
     exists g, entry (gradient B x1 x2 gradB) (i - size A) = Some g /\
               entry (gradient (Sum A B) x1 x2 grad) i = Some g).
Proof.
  intros Hlen HlenA HlenB. cbn [reach] in Hlen.
  pose proof (size_nonneg A). pose proof (size_le_reach A).
  pose proof (size_le_reach B).
  unfold entry. split; intros i Hi.
  - rewrite Sum_gradient_left by (exact metric_keeps || lia).
    apply gradient_entry_reach; lia.
  - rewrite Sum_gradient_right by (exact metric_keeps || lia).
    rewrite <- Z2Nat.inj_sub by lia.
    apply gradient_entry_reach; [lia | | lia].
    rewrite length_drop, gradient_length by exact metric_keeps. lia.
Qed.


End ReachOverwrite.

End ReachFrame.

End Laws.

End Reach.

(** ** Sizes that wrap, on concrete trees *)

Lemma UniformMetric_keeps_length : metric_gradient_keeps_length UniformMetric.
Proof. intros m x1 x2 grad. simpl. apply length_imap. Qed.


Lemma full_buffer_lookup (j : nat) :
  Z.of_nat j < UINT_MODULUS -> full_buffer !! j = Some 0%float.
Proof.
  intros Hj. unfold full_buffer. apply lookup_replicate_2.
  apply Nat2Z.inj_lt. rewrite Z2Nat.id; [exact Hj|].
  unfold UINT_MODULUS. lia.
Qed.

Lemma size_kSmall : size kSmall = 2.
Proof. reflexivity. Qed.

Lemma size_kHuge : size kHuge = 4294967294.
Proof. vm_compute. reflexivity. Qed.

Lemma size_Product_kSmall_kHuge : size (Product kSmall kHuge) = 0.
Proof. vm_compute. reflexivity. Qed.


(** The first entry of the right half of the product, in a buffer with an
    entry for each of the [2^32] parameters. *)
Lemma Product_kSmall_kHuge_entry :
  entry (gradient (Product kSmall kHuge) p1 p2 full_buffer) 2 = Some 4%float.
Proof.
  unfold entry. rewrite Product_gradient_lookup.
  rewrite size_Product_kSmall_kHuge, size_kSmall.
  destruct (decide (Z.of_nat (Z.to_nat 2) < 2)); [lia|].
  destruct (decide (Z.of_nat (Z.to_nat 2) < 0)); [lia|].
  rewrite option_fmap_id.
  rewrite Sum_gradient_right
    by (exact UniformMetric_keeps_length || rewrite size_kSmall; lia).
  rewrite size_kSmall.
  replace (Z.to_nat 2 - Z.to_nat 2)%nat with 0%nat by lia.
  unfold kHuge.
  rewrite Stationary_gradient_own_block
    by (exact UniformMetric_keeps_length || (unfold size_; simpl; lia)).
  rewrite lookup_drop. unfold kSmall.
  rewrite Additive_gradient_pointwise.
  rewrite full_buffer_lookup by (unfold UINT_MODULUS; lia).
  reflexivity.
Qed.






(** C6 with integer sums does not extend to sizes whose sum is [2^32] or
    more: there the sizes of the operators and of the stationary kernel
    are not the sums. *)
Lemma size_of_each_class_counterexample :
  size kW = 2147483649 /\
  size (Sum kW kW) = 2 /\ size (Product kW kW) = 2 /\
  size kW + size kW = 4294967298 /\
  size kWrapped = 0 /\
  Z.of_nat (length [2%float]) + metric_size widest_metric = 4294967296.
Proof. repeat split; vm_compute; reflexivity. Qed.

(** ** The theorems on gradients at the example objects *)

Lemma Sum_gradient_halves_witness :
  (forall i, 0 <= i < size kA ->
     exists g, entry (gradient kA p1 p2 (zeros 2)) i = Some g /\
               entry (gradient (Sum kA kB) p1 p2 (replicate 5 9%float)) i
               = Some g) /\
  (forall i, size kA <= i < size kA + size kB ->
     exists g, entry (gradient kB p1 p2 (zeros 2)) (i - size kA) = Some g /\
               entry (gradient (Sum kA kB) p1 p2 (replicate 5 9%float)) i
               = Some g).
Proof.
  apply (Sum_gradient_halves
           ScaledEuclidean_keeps_length ScaledEuclidean_size_unsigned
           ScaledEuclidean_gradient_frame ScaledEuclidean_writes_all
           kA kB p1 p2 (replicate 5 9%float) (zeros 2) (zeros 2)).
  - vm_compute. discriminate.
  - vm_compute. discriminate.
  - vm_compute. discriminate.
Defined.


Lemma Product_gradient_wrapped_size_witness :
  size (Product kSmall kHuge) < size kSmall /\
  (forall i, 0 <= i < size kSmall ->
     entry (gradient (Product kSmall kHuge) p1 p2 full_buffer) i
     = (fun g => (g * value kHuge p1 p2)%float)
         <$> entry (gradient kSmall p1 p2 full_buffer) i) /\
  (forall i, size kSmall <= i ->
     entry (gradient (Product kSmall kHuge) p1 p2 full_buffer) i
     = entry (gradient (Sum kSmall kHuge) p1 p2 full_buffer) i).
Proof.
  apply (Product_gradient_wrapped_size UniformMetric_keeps_length
           kSmall kHuge p1 p2 full_buffer).
  - rewrite size_kSmall. vm_compute. reflexivity.
  - rewrite size_kHuge. vm_compute. reflexivity.
  - rewrite size_kSmall, size_kHuge. vm_compute. discriminate.
Defined.

(** At this product the entries of the third part exist: the one at
    [sA] is the first entry of the gradient of [B], as [B] wrote it. *)
Example Product_gradient_wrapped_size_example :
  entry (gradient (Product kSmall kHuge) p1 p2 full_buffer) 2 = Some 4%float /\
  entry (gradient (Sum kSmall kHuge) p1 p2 full_buffer) 2 = Some 4%float /\
  value kSmall p1 p2 = 9.5%float.
Proof.
  split; [apply Product_kSmall_kHuge_entry | split; [|vm_compute; reflexivity]].
  unfold entry.
  rewrite Sum_gradient_right
    by (exact UniformMetric_keeps_length || rewrite size_kSmall; lia).
  rewrite size_kSmall.
  replace (Z.to_nat 2 - Z.to_nat 2)%nat with 0%nat by lia.
  unfold kHuge.
  rewrite Stationary_gradient_own_block
    by (exact UniformMetric_keeps_length || (unfold size_; simpl; lia)).
  rewrite lookup_drop. unfold kSmall.
  rewrite Additive_gradient_pointwise.
  rewrite full_buffer_lookup by (unfold UINT_MODULUS; lia).
  reflexivity.
Qed.
